(** * Unseen Spots: the three-agent discovery pipeline of [app.py]

    A shallow embedding of the Streamlit script [app.py]:
    - [agent1_find_unseen_spots]  (Discovery, the inverse filter),
    - [agent2_analyze_vibe]       (VibeScorer),
    - [agent3_generate_narrative] (ItineraryComposer),
    - the [run_button] handler    (the orchestrator).

    Modelling choices.
    - Python values coming from JSON are the inductive [pyval]; a Python
      [dict] with string keys is a [gmap string pyval].
    - The candidate dictionaries that Agent 2 receives are mutable objects:
      they live in a store ([heap]) and the lists handed around hold
      references ([loc]), so that aliasing and in-place updates are visible.
    - A finite Python [float] is the rational it denotes ([Q]); comparisons
      between [int], [bool] and [float] are exact in Python, so they are
      comparisons in [Q].
    - The outside world (Google Maps, Gemini) is an [Env] of oracles. Each
      oracle sees the trace of everything that happened so far, so its
      answers may depend on the call history in any way.
    - Everything the script shows or requests is appended to a [trace].
    - A Python exception is the result [Exc]; [try/except Exception] is
      [try_catch].
    - The [st.cache_data] decorators are not modelled: the definitions are
      the bodies of the decorated functions, that is, what a call does
      when it is not answered from the cache. Every statement below is
      about such a call. *)

From Stdlib Require Import QArith.
From stdpp Require Import base option list gmap strings sorting.

Open Scope Z_scope.

(** ** Python values *)

#[local] Set Warnings "-register-all".

Inductive pyval : Type :=
| PNone
| PBool (b : bool)
| PInt (n : Z)
| PFloat (q : Q)
| PStr (s : string)
| PList (l : list pyval)
| PDict (d : gmap string pyval).

Abbreviation dict := (gmap string pyval).

(** Results of a computation that may raise. *)
Inductive res (A : Type) : Type :=
| Val (a : A)
| Exc.
Arguments Val {A} a.
Arguments Exc {A}.

(** [bool(v)]: the truth value Python gives to [v] in [if v] / [not v]. *)
Definition truthy (v : pyval) : bool :=
  match v with
  | PNone => false
  | PBool b => b
  | PInt n => negb (n =? 0)
  | PFloat q => negb (Qeq_bool q 0)
  | PStr s => negb (String.eqb s "")
  | PList l => match l with [] => false | _ => true end
  | PDict d => negb (bool_decide (size d = 0%nat))
  end.

(** The number a value denotes in an ordering comparison, if it is one
    ([bool] is a subclass of [int]). Anything else makes [<], [<=], [>=]
    against a number raise [TypeError]. *)
Definition as_num (v : pyval) : option Q :=
  match v with
  | PBool b => Some (inject_Z (if b then 1 else 0))
  | PInt n => Some (inject_Z n)
  | PFloat q => Some q
  | _ => None
  end.

(** [v >= bound] *)
Definition py_ge (v : pyval) (bound : Q) : res bool :=
  match as_num v with
  | Some q => Val (Qle_bool bound q)
  | None => Exc
  end.

(** [v <= bound] *)
Definition py_le (v : pyval) (bound : Q) : res bool :=
  match as_num v with
  | Some q => Val (Qle_bool q bound)
  | None => Exc
  end.

(** [v > bound] *)
Definition py_gt (v : pyval) (bound : Q) : res bool :=
  match as_num v with
  | Some q => Val (negb (Qle_bool q bound))
  | None => Exc
  end.

(** [v.get(k, default)]: only a dict has [.get]. *)
Definition py_get (v : pyval) (k : string) (dflt : pyval) : res pyval :=
  match v with
  | PDict d => Val (default dflt (d !! k))
  | _ => Exc
  end.

(** [v[k]] for a string key: only a dict can be subscripted by a string,
    and a missing key raises [KeyError]. *)
Definition py_getitem (v : pyval) (k : string) : res pyval :=
  match v with
  | PDict d => match d !! k with Some x => Val x | None => Exc end
  | _ => Exc
  end.

(** [v[0]] *)
Definition py_index0 (v : pyval) : res pyval :=
  match v with
  | PList (x :: _) => Val x
  | PStr (String c _) => Val (PStr (String c ""))
  | _ => Exc
  end.

(** The one-character strings a [for] loop over a string yields. *)
Fixpoint chars (s : string) : list pyval :=
  match s with
  | EmptyString => []
  | String c s' => PStr (String c "") :: chars s'
  end.

(** The items a [for] loop (or a comprehension) over [v] yields: the
    elements of a list, the characters of a string, the keys of a dict;
    the other values are not iterable. *)
Definition py_iter (v : pyval) : res (list pyval) :=
  match v with
  | PList l => Val l
  | PStr s => Val (chars s)
  | PDict d => Val ((λ kv, PStr kv.1) <$> map_to_list d)
  | _ => Exc
  end.

#[global] Instance res_ret : MRet res := λ A a, Val a.
#[global] Instance res_bind : MBind res := λ A B f m,
  match m with
  | Val a => f a
  | Exc => Exc
  end.

(** ** The world: object store, trace, oracles *)

Definition loc := nat.

(** Messages of [st.write], [st.error] and [st.warning], one constructor
    per message of the script, with the values its f-string interpolates. *)
Inductive message : Type :=
| MsgAgent1Searching (query city : string)
| MsgCityNotFound (city : string)
| MsgMapsError
| MsgAgent1Found (n : nat)
| MsgAgent2Analyzing (n : nat)
| MsgSkipNoReviews (name : pyval)
| MsgAnalyzed (name : pyval) (score : Z)
| MsgSkipInvalid (name : pyval)
| MsgErrorAnalyzing (name : pyval)
| MsgAgent2Finished (top : pyval)
| MsgAgent3Generating (n : nat)
| MsgAgent3NoStructure
| MsgAgent3Exception
| MsgPleaseEnter
| MsgAgent3Failed
| MsgAgent2NoMatch
| MsgAgent1NoMatch.

(** What is sent to the language model: the interpolated parts of the two
    prompts. *)
Inductive prompt : Type :=
| VibePrompt (name : pyval) (user_vibe : string) (reviews : string)
| ItineraryPrompt (city vibe : string) (spot_data_summary : list dict).

(** [response.parts[i].function_call] *)
Record function_call : Type := FunctionCall {
  fc_name : string;
  fc_args : dict
}.

(** ** Pydantic schemas *)

Record SpotVibeAnalysis : Type := {
  vibe_adjectives : list string;
  unique_features : list string;
  vibe_match_score : Z;
  vibe_match_justification : string
}.

Record FinalItinerarySpot : Type := {
  place_name : string;
  pitch_narrative : string;
  google_maps_link : string
}.

Record FinalItinerary : Type := {
  itinerary_title : string;
  itinerary_spots : list FinalItinerarySpot
}.

Inductive event : Type :=
| EvWrite (m : message)
| EvError (m : message)
| EvWarning (m : message)
| EvGeocode (city : string)
| EvPlacesNearby (lat lng : pyval) (radius : Z) (keyword : string)
| EvPlace (place_id : pyval)
| EvGenerate (p : prompt) (forced_function : string)
| EvShowItinerary (it : FinalItinerary)
| EvShowRawData (spots : list dict).

Abbreviation trace := (list event).

(** The external collaborators. Each call is answered from the trace of
    the run so far and the arguments of the call. [types_oracle f] says
    whether the Gemini library builds the schema, tool and tool
    configuration objects for the function named [f], or raises. *)
Record Env : Type := {
  gmaps_geocode_oracle : trace → string → res pyval;
  gmaps_places_nearby_oracle : trace → pyval → pyval → Z → string → res pyval;
  gmaps_place_oracle : trace → pyval → res pyval;
  generate_content_oracle : trace → prompt → string → res (list function_call);
  types_oracle : string → res unit
}.

Record World : Type := {
  heap : gmap loc dict;
  log : trace
}.

Definition emit (e : event) (w : World) : World :=
  {| heap := heap w; log := log w ++ [e] |}.

(** The monad of the script: state passing over the world, with
    exceptions. A raised exception keeps the effects done before it. *)
Definition M (A : Type) : Type := World → World * res A.

#[global] Instance M_ret : MRet M := λ A a w, (w, Val a).
#[global] Instance M_bind : MBind M := λ A B f m w,
  match m w with
  | (w', Val a) => f a w'
  | (w', Exc) => (w', Exc)
  end.

Definition lift {A} (r : res A) : M A := λ w, (w, r).

(** [try: body except Exception: handler] *)
Definition try_catch {A} (body handler : M A) : M A := λ w,
  match body w with
  | (w', Val a) => (w', Val a)
  | (w', Exc) => handler w'
  end.

Definition st_write (m : message) : M unit := λ w, (emit (EvWrite m) w, Val tt).
Definition st_error (m : message) : M unit := λ w, (emit (EvError m) w, Val tt).
Definition st_warning (m : message) : M unit := λ w, (emit (EvWarning m) w, Val tt).

Section Pipeline.

(** The collaborators of the run. *)
Variable env : Env.

(** Pydantic's lax conversion of a string to an [int] ("7" is accepted for
    an [int] field). Its parser is not part of the script; it is a
    parameter of the development. *)
Variable str_as_int : string → option Z.

Definition gmaps_geocode (city : string) : M pyval := λ w,
  (emit (EvGeocode city) w, gmaps_geocode_oracle env (log w) city).

Definition gmaps_places_nearby (lat lng : pyval) (radius : Z) (keyword : string)
  : M pyval := λ w,
  (emit (EvPlacesNearby lat lng radius keyword) w,
   gmaps_places_nearby_oracle env (log w) lat lng radius keyword).

Definition gmaps_place (place_id : pyval) : M pyval := λ w,
  (emit (EvPlace place_id) w, gmaps_place_oracle env (log w) place_id).

Definition generate_content (p : prompt) (forced_function : string)
  : M (list function_call) := λ w,
  (emit (EvGenerate p forced_function) w,
   generate_content_oracle env (log w) p forced_function).

(** The tool set-up of lines 117-133 and 221-236: the schema, the tool
    and the tool configuration are built by constructors of the Gemini
    library ([types.Schema.from_dict], [types.Tool],
    [types.FunctionDeclaration], [types.ToolConfig],
    [types.FunctionCallingConfig]). They touch neither the store nor the
    services and stand outside every [try]: when the library raises (an
    [AttributeError] where its [types] module has no such attribute), the
    exception leaves the agent. Whether they return is the library's
    business, hence [types_oracle]. *)
Definition tool_setup (function_name : string) : M unit := λ w,
  (w, types_oracle env function_name).

(** ** Agent 1: the inverse filter *)

Definition default_radius_m : Z := 3000.

(** The [try] block of Agent 1 (lines 69-83). [None] is its early
    [return []] when the city has no coordinates; [Some raw_results] is
    the answer of the nearby search. *)
Definition agent1_search (city query : string) (radius_m : Z) : M (option pyval) :=
  geocode_result ← gmaps_geocode city;
  if negb (truthy geocode_result) then
    st_error (MsgCityNotFound city);; mret None
  else
    first ← lift (py_index0 geocode_result);
    geometry ← lift (py_getitem first "geometry");
    city_center ← lift (py_getitem geometry "location");
    lat ← lift (py_getitem city_center "lat");
    lng ← lift (py_getitem city_center "lng");
    raw_results ← gmaps_places_nearby lat lng radius_m query;
    mret (Some raw_results).

(** The condition of line 96, with Python's short-circuit [and]. *)
Definition inverse_filter (rating review_count : pyval)
    (max_reviews : Z) (min_rating : Q) : res bool :=
  c1 ← py_ge rating min_rating;
  if c1 : bool then
    c2 ← py_le review_count (inject_Z max_reviews);
    if c2 : bool then py_gt review_count 0 else mret false
  else mret false.

(** The dict literal of lines 97-102. *)
Definition new_spot (name place_id rating review_count : pyval) : dict :=
  <["name" := name]> (<["place_id" := place_id]>
    (<["rating" := rating]> (<["review_count" := review_count]> ∅))).

(** The loop of lines 89-102 over the raw hits, appending to [unseen_spots]. *)
Fixpoint agent1_loop (places : list pyval) (max_reviews : Z) (min_rating : Q)
    (unseen_spots : list dict) : res (list dict) :=
  match places with
  | [] => mret unseen_spots
  | place :: rest =>
      name ← py_get place "name" PNone;
      place_id ← py_get place "place_id" PNone;
      rating ← py_get place "rating" (PInt 0);
      review_count ← py_get place "user_ratings_total" (PInt 0);
      keep ← inverse_filter rating review_count max_reviews min_rating;
      if keep : bool then
        agent1_loop rest max_reviews min_rating
          (unseen_spots ++ [new_spot name place_id rating review_count])
      else
        agent1_loop rest max_reviews min_rating unseen_spots
  end.

Definition agent1_find_unseen_spots (city query : string) (max_reviews : Z)
    (min_rating : Q) (radius_m : Z) : M (list dict) :=
  st_write (MsgAgent1Searching query city);;
  found ← try_catch (agent1_search city query radius_m)
                    (st_error MsgMapsError;; mret None);
  match found with
  | None => mret []
  | Some raw_results =>
      results ← lift (py_get raw_results "results" (PList []));
      places ← lift (py_iter results);
      unseen_spots ← lift (agent1_loop places max_reviews min_rating []);
      st_write (MsgAgent1Found (length unseen_spots));;
      mret unseen_spots
  end.

(** ** Schema validation ([BaseModel.model_validate], lax mode)

    The fields of the three schemas carry a [description] only: no bound
    ([ge], [le], [min_length], [max_length]) is declared on any of them, so
    validation checks presence and type, and nothing else. *)

(** A [str] field accepts a string. *)
Definition validate_str (v : pyval) : res string :=
  match v with
  | PStr s => Val s
  | _ => Exc
  end.

(** An [int] field accepts an [int], a [bool], a [float] without fractional
    part that lies strictly between -2^63 and 2^63, and a string that
    reads as an integer. *)
Definition validate_int (v : pyval) : res Z :=
  match v with
  | PInt n => Val n
  | PBool b => Val (if b then 1 else 0)
  | PFloat q =>
      let n := Qnum q / Zpos (Qden q) in
      if (Qnum q mod Zpos (Qden q) =? 0) && (- 2 ^ 63 <? n) && (n <? 2 ^ 63)
      then Val n
      else Exc
  | PStr s => match str_as_int s with Some n => Val n | None => Exc end
  | _ => Exc
  end.

Fixpoint validate_each {A} (f : pyval → res A) (l : list pyval) : res (list A) :=
  match l with
  | [] => mret []
  | v :: rest => a ← f v; r ← validate_each f rest; mret (a :: r)
  end.

(** A [List[T]] field accepts a list whose elements validate as [T]. *)
Definition validate_list {A} (f : pyval → res A) (v : pyval) : res (list A) :=
  match v with
  | PList l => validate_each f l
  | _ => Exc
  end.

(** A required field: missing is an error. *)
Definition required {A} (args : dict) (k : string) (f : pyval → res A) : res A :=
  match args !! k with
  | Some v => f v
  | None => Exc
  end.

Definition SpotVibeAnalysis_model_validate (args : dict) : res SpotVibeAnalysis :=
  adjectives ← required args "vibe_adjectives" (validate_list validate_str);
  features ← required args "unique_features" (validate_list validate_str);
  score ← required args "vibe_match_score" validate_int;
  justification ← required args "vibe_match_justification" validate_str;
  mret {| vibe_adjectives := adjectives;
          unique_features := features;
          vibe_match_score := score;
          vibe_match_justification := justification |}.

(** [vibe_analysis.model_dump()] *)
Definition SpotVibeAnalysis_model_dump (va : SpotVibeAnalysis) : pyval :=
  PDict (<["vibe_adjectives" := PList (PStr <$> vibe_adjectives va)]>
        (<["unique_features" := PList (PStr <$> unique_features va)]>
        (<["vibe_match_score" := PInt (vibe_match_score va)]>
        (<["vibe_match_justification" := PStr (vibe_match_justification va)]> ∅)))).

Definition FinalItinerarySpot_model_validate (v : pyval) : res FinalItinerarySpot :=
  match v with
  | PDict args =>
      name ← required args "place_name" validate_str;
      pitch ← required args "pitch_narrative" validate_str;
      link ← required args "google_maps_link" validate_str;
      mret {| place_name := name; pitch_narrative := pitch;
              google_maps_link := link |}
  | _ => Exc
  end.

Definition FinalItinerary_model_validate (args : dict) : res FinalItinerary :=
  title ← required args "itinerary_title" validate_str;
  spots ← required args "itinerary_spots"
             (validate_list FinalItinerarySpot_model_validate);
  mret {| itinerary_title := title; itinerary_spots := spots |}.

(** ** Agent 2: vibe analysis *)

(** [spot[k]] on the candidate object at [spot]. A reference that the
    store does not bind reads as an empty dict. *)
Definition spot_item (spot : loc) (k : string) : M pyval := λ w,
  (w, match (heap w !!! spot) !! k with Some v => Val v | None => Exc end).

(** The store after [spot[k] = v]: the object at [spot] is updated in
    place, every other object is left as it is. *)
Definition heap_setitem (spot : loc) (k : string) (v : pyval)
    (h : gmap loc dict) : gmap loc dict :=
  <[spot := <[k := v]> (h !!! spot)]> h.

(** [spot[k] = v] *)
Definition spot_setitem (spot : loc) (k : string) (v : pyval) : M unit := λ w,
  ({| heap := heap_setitem spot k v (heap w); log := log w |}, Val tt).

(** [response.parts[0].function_call] *)
Definition first_function_call (parts : list function_call) : res function_call :=
  match parts with
  | fc :: _ => Val fc
  | [] => Exc
  end.

(** [[r.get('text', '') for r in reviews]] *)
Fixpoint review_texts (reviews : list pyval) : res (list pyval) :=
  match reviews with
  | [] => mret []
  | r :: rest =>
      t ← py_get r "text" (PStr ""); ts ← review_texts rest; mret (t :: ts)
  end.

(** [sep.join(items)]: every item must be a string. *)
Definition py_join (sep : string) (items : list pyval) : res string :=
  strs ← validate_each validate_str items; mret (String.concat sep strs).

(** Step 1 of the [try] block (lines 138-144): the reviews and the Maps
    url of the place, as the place-details answer gives them. *)
Definition fetch_details (spot : loc) : M (pyval * pyval) :=
  place_id ← spot_item spot "place_id";
  place_details ← gmaps_place place_id;
  result ← lift (py_get place_details "result" (PDict ∅));
  reviews ← lift (py_get result "reviews" (PList []));
  result' ← lift (py_get place_details "result" (PDict ∅));
  url ← lift (py_get result' "url" (PStr ""));
  mret (reviews, url).

(** Step 4 (lines 176-179 and 185-186): the function call of the answer is
    validated against [SpotVibeAnalysis]; another function is a skip. *)
Definition parse_analysis (spot : loc) (response : list function_call)
  : M (option SpotVibeAnalysis) :=
  fc ← lift (first_function_call response);
  if String.eqb (fc_name fc) "analyze_spot_vibe" then
    vibe_analysis ← lift (SpotVibeAnalysis_model_validate (fc_args fc));
    mret (Some vibe_analysis)
  else
    name ← spot_item spot "name";
    st_write (MsgSkipInvalid name);;
    mret None.

(** Steps 2 to 4 (lines 150-186, short of storing the analysis): the
    prompt is built from the review texts, cut to 3000 characters after
    joining, and the model is asked once. *)
Definition ask_model (spot : loc) (user_vibe : string) (reviews : pyval)
  : M (option SpotVibeAnalysis) :=
  items ← lift (py_iter reviews);
  texts ← lift (review_texts items);
  review_snippets ← lift (py_join " " texts);
  name ← spot_item spot "name";
  response ← generate_content
    (VibePrompt name user_vibe (String.substring 0 3000 review_snippets))
    "analyze_spot_vibe";
  parse_analysis spot response.

(** Lines 138-179 and 185-186 of the [try] block: everything before the
    analysis is stored. The result is [Some analysis] when the model's
    function call validated, and [None] when the spot is skipped (no
    reviews, or another function was called). *)
Definition score_spot (spot : loc) (user_vibe : string)
  : M (option SpotVibeAnalysis) :=
  details ← fetch_details spot;
  spot_setitem spot "url" details.2;;
  if negb (truthy details.1) then
    name ← spot_item spot "name";
    st_write (MsgSkipNoReviews name);;
    mret None
  else
    ask_model spot user_vibe details.1.

(** Lines 182-184: store the analysis, append the spot, report it. The
    result is the new [analyzed_spots] together with the outcome of the
    block, so that an exception raised after the append keeps the append. *)
Definition store_analysis (spot : loc) (vibe_analysis : SpotVibeAnalysis)
    (analyzed_spots : list loc) : World → World * (list loc * res unit) := λ w,
  let '(w1, _) :=
    spot_setitem spot "vibe_analysis"
      (SpotVibeAnalysis_model_dump vibe_analysis) w in
  let analyzed_spots' := analyzed_spots ++ [spot] in
  match spot_item spot "name" w1 with
  | (w2, Val name) =>
      (emit (EvWrite (MsgAnalyzed name (vibe_match_score vibe_analysis))) w2,
       (analyzed_spots', Val tt))
  | (w2, Exc) => (w2, (analyzed_spots', Exc))
  end.

(** The [try] block of one iteration (lines 137-186). *)
Definition try_spot (spot : loc) (user_vibe : string) (analyzed_spots : list loc)
  : World → World * (list loc * res unit) := λ w,
  match score_spot spot user_vibe w with
  | (w1, Val (Some vibe_analysis)) =>
      store_analysis spot vibe_analysis analyzed_spots w1
  | (w1, Val None) => (w1, (analyzed_spots, Val tt))
  | (w1, Exc) => (w1, (analyzed_spots, Exc))
  end.

(** The [except Exception] handler of line 189. Its f-string reads
    [spot['name']] again and is not itself protected. *)
Definition except_spot (spot : loc) : M unit :=
  name ← spot_item spot "name";
  st_warning (MsgErrorAnalyzing name).

(** One iteration of the loop of lines 135-189. *)
Definition analyze_spot (spot : loc) (user_vibe : string)
    (analyzed_spots : list loc) : M (list loc) := λ w,
  match try_spot spot user_vibe analyzed_spots w with
  | (w1, (analyzed_spots', Val _)) => (w1, Val analyzed_spots')
  | (w1, (analyzed_spots', Exc)) =>
      match except_spot spot w1 with
      | (w2, Val _) => (w2, Val analyzed_spots')
      | (w2, Exc) => (w2, Exc)
      end
  end.

Fixpoint agent2_loop (spots : list loc) (user_vibe : string)
    (analyzed_spots : list loc) : M (list loc) :=
  match spots with
  | [] => mret analyzed_spots
  | spot :: rest =>
      analyzed_spots' ← analyze_spot spot user_vibe analyzed_spots;
      agent2_loop rest user_vibe analyzed_spots'
  end.

(** The key of line 192: [x['vibe_analysis']['vibe_match_score']]. The
    only value the loop ever stores there is the [int] of a validated
    analysis; any other shape is reported as a failure of the sort. *)
Definition sort_key (h : gmap loc dict) (spot : loc) : res Z :=
  match (h !!! spot) !! "vibe_analysis" with
  | Some va =>
      score ← py_getitem va "vibe_match_score";
      match score with
      | PInt n => Val n
      | _ => Exc
      end
  | None => Exc
  end.

Fixpoint sort_keys (h : gmap loc dict) (spots : list loc)
  : res (list (Z * loc)) :=
  match spots with
  | [] => mret []
  | spot :: rest =>
      k ← sort_key h spot; ks ← sort_keys h rest; mret ((k, spot) :: ks)
  end.

(** [list.sort(key=..., reverse=True)] is a stable sort into descending
    key order: elements with equal keys keep their relative order. It is
    modelled by a stable insertion sort on the keyed list. *)
Fixpoint insert_desc (x : Z * loc) (l : list (Z * loc)) : list (Z * loc) :=
  match l with
  | [] => [x]
  | y :: l' => if (y.1 <=? x.1) then x :: y :: l' else y :: insert_desc x l'
  end.

Fixpoint sort_desc (l : list (Z * loc)) : list (Z * loc) :=
  match l with
  | [] => []
  | x :: l' => insert_desc x (sort_desc l')
  end.

(** Line 192. *)
Definition sort_by_score (analyzed_spots : list loc) : M (list loc) := λ w,
  (w, keyed ← sort_keys (heap w) analyzed_spots;
      mret (snd <$> sort_desc keyed)).

Definition agent2_analyze_vibe (_unseen_spots : list loc) (user_vibe : string)
  : M (list loc) :=
  st_write (MsgAgent2Analyzing (length _unseen_spots));;
  tool_setup "analyze_spot_vibe";;
  analyzed_spots ← agent2_loop _unseen_spots user_vibe [];
  sorted_spots ← sort_by_score analyzed_spots;
  top ← match sorted_spots with
        | [] => mret (PStr "None")
        | first :: _ => spot_item first "name"
        end;
  st_write (MsgAgent2Finished top);;
  mret sorted_spots.

(** ** Agent 3: the narrative *)

(** [spot[k1][k2]] *)
Definition spot_item2 (spot : loc) (k1 k2 : string) : M pyval :=
  v ← spot_item spot k1; lift (py_getitem v k2).

(** The dict literal of lines 210-218; its values are evaluated in order. *)
Definition spot_summary (spot : loc) : M dict :=
  name ← spot_item spot "name";
  url ← spot_item spot "url";
  rating ← spot_item spot "rating";
  review_count ← spot_item spot "review_count";
  adjectives ← spot_item2 spot "vibe_analysis" "vibe_adjectives";
  features ← spot_item2 spot "vibe_analysis" "unique_features";
  justification ← spot_item2 spot "vibe_analysis" "vibe_match_justification";
  mret (<["name" := name]> (<["url" := url]> (<["rating" := rating]>
       (<["review_count" := review_count]>
       (<["vibe_adjectives" := adjectives]>
       (<["unique_features" := features]>
       (<["vibe_justification" := justification]> ∅))))))).

(** The loop of lines 209-218, appending to [spot_data_summary]. *)
Fixpoint summary_loop (top_spots : list loc) (spot_data_summary : list dict)
  : M (list dict) :=
  match top_spots with
  | [] => mret spot_data_summary
  | spot :: rest =>
      d ← spot_summary spot;
      summary_loop rest (spot_data_summary ++ [d])
  end.

(** The [try] block of lines 255-268. *)
Definition agent3_call (p : prompt) : M (option FinalItinerary) :=
  response ← generate_content p "generate_itinerary";
  fc ← lift (first_function_call response);
  if String.eqb (fc_name fc) "generate_itinerary" then
    final_itinerary ← lift (FinalItinerary_model_validate (fc_args fc));
    mret (Some final_itinerary)
  else
    st_error MsgAgent3NoStructure;; mret None.

Definition agent3_generate_narrative (_top_spots : list loc) (city vibe : string)
  : M (option FinalItinerary) :=
  st_write (MsgAgent3Generating (length _top_spots));;
  match _top_spots with
  | [] => mret None
  | _ :: _ =>
      spot_data_summary ← summary_loop _top_spots [];
      tool_setup "generate_itinerary";;
      try_catch (agent3_call (ItineraryPrompt city vibe spot_data_summary))
                (st_error MsgAgent3Exception;; mret None)
  end.

(** ** The orchestrator: the [run_button] handler *)

(** A fresh candidate object for each dict Agent 1 built. *)
Definition alloc (d : dict) : M loc := λ w,
  let l := fresh (dom (heap w)) in
  ({| heap := <[l := d]> (heap w); log := log w |}, Val l).

Fixpoint alloc_all (ds : list dict) : M (list loc) :=
  match ds with
  | [] => mret []
  | d :: rest => l ← alloc d; ls ← alloc_all rest; mret (l :: ls)
  end.

Definition show_itinerary (it : FinalItinerary) : M unit := λ w,
  (emit (EvShowItinerary it) w, Val tt).

Definition show_raw_data (spots : list loc) : M unit := λ w,
  (emit (EvShowRawData ((λ l, heap w !!! l) <$> spots)) w, Val tt).

(** Lines 301-358, entered when the button was pressed. *)
Definition run_button_handler (city_input vibe_input : string)
    (min_rating_input : Q) (max_reviews_input : Z) : M unit :=
  if String.eqb city_input "" || String.eqb vibe_input "" then
    st_error MsgPleaseEnter
  else
    unseen_dicts ← agent1_find_unseen_spots city_input vibe_input
                     max_reviews_input min_rating_input default_radius_m;
    match unseen_dicts with
    | [] => st_warning MsgAgent1NoMatch
    | _ :: _ =>
        unseen_spots ← alloc_all unseen_dicts;
        analyzed_spots ← agent2_analyze_vibe unseen_spots vibe_input;
        match analyzed_spots with
        | [] => st_warning MsgAgent2NoMatch
        | _ :: _ =>
            final_itinerary ← agent3_generate_narrative
                                (take 3 analyzed_spots) city_input vibe_input;
            match final_itinerary with
            | Some it =>
                show_itinerary it;; show_raw_data (take 3 analyzed_spots)
            | None => st_error MsgAgent3Failed
            end
        end
    end.

End Pipeline.

(** ** Specification vocabulary *)

#[global] Instance res_eq_dec {A} `{EqDecision A} : EqDecision (res A).
Proof. solve_decision. Defined.

(** *** Discovery *)

(** The rating and the review count of a raw hit, read as 0 when absent. *)
Definition hit_rating (place : dict) : pyval :=
  default (PInt 0) (place !! "rating").

Definition hit_review_count (place : dict) : pyval :=
  default (PInt 0) (place !! "user_ratings_total").

(** A raw hit as the places service documents it: rating and review
    count, when present, are numbers. *)
Definition numeric_hit (place : dict) : Prop :=
  is_Some (as_num (hit_rating place)) ∧ is_Some (as_num (hit_review_count place)).

(** The spec's eligibility of a hit:
    rating ≥ minRating and 0 < reviewCount ≤ maxReviews. *)
Definition eligible (min_rating : Q) (max_reviews : Z) (place : dict) : Prop :=
  ∃ r c, as_num (hit_rating place) = Some r ∧
         as_num (hit_review_count place) = Some c ∧
         (min_rating <= r)%Q ∧ (0 < c)%Q ∧ (c <= inject_Z max_reviews)%Q.

(** The same, as a test. *)
Definition eligibleb (min_rating : Q) (max_reviews : Z) (place : dict) : bool :=
  match as_num (hit_rating place), as_num (hit_review_count place) with
  | Some r, Some c =>
      Qle_bool min_rating r && negb (Qle_bool c 0)
      && Qle_bool c (inject_Z max_reviews)
  | _, _ => false
  end.

(** The Candidate of a raw hit. *)
Definition candidate_of (place : dict) : dict :=
  new_spot (default PNone (place !! "name"))
           (default PNone (place !! "place_id"))
           (hit_rating place) (hit_review_count place).

(** A well-formed Candidate: a dict with exactly the keys of lines
    97-102, whose rating and review count are numbers within the bounds
    of the filter. *)
Definition candidate_ok (min_rating : Q) (max_reviews : Z) (d : dict) : Prop :=
  ∃ name place_id rating review_count r c,
    d !! "name" = Some name ∧ d !! "place_id" = Some place_id
    ∧ d !! "rating" = Some rating ∧ d !! "review_count" = Some review_count
    ∧ dom d = {[ "name"; "place_id"; "rating"; "review_count" ]}
    ∧ as_num rating = Some r ∧ as_num review_count = Some c
    ∧ (min_rating <= r)%Q ∧ (0 < c)%Q ∧ (c <= inject_Z max_reviews)%Q.

(** *** VibeScorer *)

Inductive outcome : Type :=
| Scored    (* the model's answer validated: the spot is appended *)
| Skipped   (* no reviews, or the model called another function *)
| Failed.   (* an exception was raised inside the [try] block *)

#[global] Instance outcome_eq_dec : EqDecision outcome.
Proof. solve_decision. Defined.

(** The candidate object at [spot] has the key [k]. *)
Definition has_key (h : gmap loc dict) (k : string) (spot : loc) : Prop :=
  is_Some ((h !!! spot) !! k).

(** Every candidate of the list carries a ['name'], as every dict built by
    Agent 1 does. *)
Definition named (h : gmap loc dict) (spots : list loc) : Prop :=
  Forall (has_key h "name") spots.

(** The keys Agent 1 gives to every candidate. *)
Definition discovered (h : gmap loc dict) (spots : list loc) : Prop :=
  Forall (λ spot, has_key h "name" spot ∧ has_key h "place_id" spot ∧
                  has_key h "rating" spot ∧ has_key h "review_count" spot) spots.

(** The candidate at [spot] carries a fully populated analysis: the dump
    of a validated [SpotVibeAnalysis]. *)
Definition analysed (h : gmap loc dict) (spot : loc) : Prop :=
  ∃ va, (h !!! spot) !! "vibe_analysis" = Some (SpotVibeAnalysis_model_dump va).

(** A candidate with everything the summary of lines 210-218 reads. *)
Definition populated (h : gmap loc dict) (spot : loc) : Prop :=
  has_key h "name" spot ∧ has_key h "url" spot ∧ has_key h "rating" spot
  ∧ has_key h "review_count" spot ∧ analysed h spot.

(** The events Agent 2 may append to the trace: messages, place-details
    requests, and model requests for an analysis of at most 3000
    characters of review text against the user's vibe. *)
Definition agent2_event (user_vibe : string) (e : event) : Prop :=
  match e with
  | EvWrite _ | EvWarning _ | EvPlace _ => True
  | EvGenerate (VibePrompt _ vibe reviews) forced_function =>
      vibe = user_vibe ∧ forced_function = "analyze_spot_vibe"
      ∧ (String.length reviews ≤ 3000)%nat
  | _ => False
  end.

Section Outcomes.

Variable env : Env.
Variable str_as_int : string → option Z.
Variable user_vibe : string.

(** How the scoring of [spot] ends when it starts in world [w]. *)
Definition spot_outcome (spot : loc) (w : World) : outcome :=
  match score_spot env str_as_int spot user_vibe w with
  | (_, Val (Some _)) => Scored
  | (_, Val None) => Skipped
  | (_, Exc) => Failed
  end.

(** The world after the iteration for [spot]. *)
Definition world_after (spot : loc) (w : World) : World :=
  (analyze_spot env str_as_int spot user_vibe [] w).1.

(** The world after the iterations for [spots], in order. *)
Fixpoint run_spots (spots : list loc) (w : World) : World :=
  match spots with
  | [] => w
  | spot :: rest => run_spots rest (world_after spot w)
  end.

(** The candidates of [spots] whose scoring succeeds, each judged in the
    world its iteration starts in; input order is kept. *)
Fixpoint scored_spots (spots : list loc) (w : World) : list loc :=
  match spots with
  | [] => []
  | spot :: rest =>
      (if decide (spot_outcome spot w = Scored) then [spot] else [])
      ++ scored_spots rest (world_after spot w)
  end.

(** The detail fetch for [spot] succeeds in world [w]: the candidate has a
    place id and the service answers with a well-formed place-details
    record, whose ['result'] carries the reviews and the url. *)
Definition details_fetched (spot : loc) (w : World) (url : pyval) : Prop :=
  ∃ place_id place_details result reviews,
    (heap w !!! spot) !! "place_id" = Some place_id ∧
    gmaps_place_oracle env (log w) place_id = Val place_details ∧
    py_get place_details "result" (PDict ∅) = Val result ∧
    py_get result "reviews" (PList []) = Val reviews ∧
    py_get result "url" (PStr "") = Val url.

End Outcomes.

(** The score Agent 2 sorts by, when the candidate has one. *)
Definition vibe_score (h : gmap loc dict) (spot : loc) : option Z :=
  match sort_key h spot with
  | Val n => Some n
  | Exc => None
  end.

(** The candidate at [a] does not score below the candidate at [b]. *)
Definition by_score (h : gmap loc dict) (a b : loc) : Prop :=
  ∃ sa sb, vibe_score h a = Some sa ∧ vibe_score h b = Some sb ∧ sb ≤ sa.

(** A keyed list whose keys are the scores of its candidates. *)
Definition keyed_by_score (h : gmap loc dict) (keyed : list (Z * loc)) : Prop :=
  Forall (λ y, vibe_score h y.2 = Some y.1) keyed.

(** Descending key order of the keyed list that is sorted. *)
Definition desc (a b : Z * loc) : Prop := b.1 ≤ a.1.

(** ** A concrete run, used by the examples below *)

Module Demo.

Definition coordinates : pyval :=
  PList [PDict {[ "geometry" :=
    PDict {[ "location" :=
      PDict (<["lat" := PFloat (3872 # 100)]> {[ "lng" := PFloat (-914 # 100) ]}) ]} ]}].

Definition hit (name place_id : string) (rating : Q) (count : Z) : dict :=
  <["name" := PStr name]> (<["place_id" := PStr place_id]>
  (<["rating" := PFloat rating]> {[ "user_ratings_total" := PInt count ]})).

(** A hit that carries neither a name nor a place id. *)
Definition anonymous_hit : dict :=
  <["rating" := PFloat (46 # 10)]> {[ "user_ratings_total" := PInt 120 ]}.

Definition details (texts : list string) (url : string) : pyval :=
  PDict {[ "result" :=
    PDict (<["reviews" := PList ((λ t, PDict {[ "text" := PStr t ]}) <$> texts)]>
           {[ "url" := PStr url ]}) ]}.

Definition analysis (score : pyval) : dict :=
  <["vibe_adjectives" := PList [PStr "cozy"; PStr "quiet"; PStr "bookish"]]>
  (<["unique_features" := PList [PStr "cash only"]]>
  (<["vibe_match_score" := score]>
  {[ "vibe_match_justification" := PStr "reviews mention old books" ]})).

Definition env (raw_hits : list dict) (score_a score_b : pyval)
    (itinerary : dict) : Env := {|
  gmaps_geocode_oracle := λ _ _, Val coordinates;
  gmaps_places_nearby_oracle := λ _ _ _ _ _,
    Val (PDict {[ "results" := PList (PDict <$> raw_hits) ]});
  gmaps_place_oracle := λ _ place_id,
    match place_id with
    | PStr "a" => Val (details ["old books"; "quiet corner"] "https://maps/a")
    | PStr "b" => Val (details ["vintage shelves"] "https://maps/b")
    | PStr "c" => Val (details [] "https://maps/c")
    | _ => Exc
    end;
  generate_content_oracle := λ _ p _,
    match p with
    | VibePrompt (PStr "A") _ _ =>
        Val [FunctionCall "analyze_spot_vibe" (analysis score_a)]
    | VibePrompt _ _ _ =>
        Val [FunctionCall "analyze_spot_vibe" (analysis score_b)]
    | ItineraryPrompt _ _ _ =>
        Val [FunctionCall "generate_itinerary" itinerary]
    end;
  types_oracle := λ _, Val tt
|}.

Definition no_str_ints : string → option Z := λ _, None.

Definition w0 : World := {| heap := ∅; log := [] |}.

Definition spot (name place_id : string) (rating : Q) (count : Z) : dict :=
  new_spot (PStr name) (PStr place_id) (PFloat rating) (PInt count).

(** A store with three candidates: "A" and "B" have reviews, "C" has none. *)
Definition w3 : World :=
  {| heap := <[0%nat := spot "A" "a" (46 # 10) 120]>
             (<[1%nat := spot "B" "b" (48 # 10) 87]>
             (<[2%nat := spot "C" "c" (47 # 10) 15]> ∅));
     log := [] |}.

(** The spec's example: with min_rating 4.5 and max_reviews 500, the first
    hit is kept, the second has no review, the third is rated too low; the
    fourth is as good as the first but has neither name nor place id. *)
Definition lisbon_hits : list dict :=
  [hit "A" "a" (46 # 10) 120; hit "Z" "z" (46 # 10) 0;
   hit "L" "l" (40 # 10) 120; anonymous_hit].

Definition lisbon_results : pyval :=
  PDict {[ "results" := PList (PDict <$> lisbon_hits) ]}.

(** The model scores "A" with 7 and the others with 11. *)
Definition lisbon_env : Env := env lisbon_hits (PInt 7) (PInt 11) ∅.

(** The world after the start message and the two search calls. *)
Definition lisbon_searched : World :=
  emit (EvPlacesNearby (PFloat (3872 # 100)) (PFloat (-914 # 100)) 3000
          "cozy cafe")
    (emit (EvGeocode "Lisbon, Portugal")
      (emit (EvWrite (MsgAgent1Searching "cozy cafe" "Lisbon, Portugal")) w0)).

(** A validated analysis with the given score. *)
Definition verdict (score : Z) : SpotVibeAnalysis :=
  {| vibe_adjectives := ["cozy"; "quiet"; "bookish"];
     unique_features := ["cash only"];
     vibe_match_score := score;
     vibe_match_justification := "reviews mention old books" |}.

(** A candidate as Agent 2 leaves it when its scoring succeeded. *)
Definition scored_spot (name place_id : string) (rating : Q) (count : Z)
    (url : string) (score : Z) : dict :=
  <["vibe_analysis" := SpotVibeAnalysis_model_dump (verdict score)]>
    (<["url" := PStr url]> (spot name place_id rating count)).

(** A store after Agent 2: candidates 0 and 1 are scored, candidate 2 was
    never fetched. *)
Definition w_scored : World :=
  {| heap := <[0%nat := scored_spot "B" "b" (48 # 10) 87 "https://maps/b" 11]>
             (<[1%nat := scored_spot "A" "a" (46 # 10) 120 "https://maps/a" 7]>
             (<[2%nat := spot "C" "c" (47 # 10) 15]> ∅));
     log := [] |}.

(** The model's itinerary: one spot, whatever the number of candidates. *)
Definition short_itinerary : dict :=
  <["itinerary_title" := PStr "Quiet pages of Lisbon"]>
  {[ "itinerary_spots" :=
       PList [PDict (<["place_name" := PStr "B"]>
                    (<["pitch_narrative" := PStr "A hush of paper."]>
                    {[ "google_maps_link" := PStr "https://maps/b" ]}))] ]}.

Definition composer_env : Env := env lisbon_hits (PInt 7) (PInt 11) short_itinerary.

(** A geocoder that knows no city. *)
Definition nowhere_env : Env := {|
  gmaps_geocode_oracle := λ _ _, Val (PList []);
  gmaps_places_nearby_oracle := λ _ _ _ _ _, Exc;
  gmaps_place_oracle := λ _ _, Exc;
  generate_content_oracle := λ _ _ _, Exc;
  types_oracle := λ _, Val tt
|}.

(** A hit whose rating came as text. *)
Definition text_rating_hit : dict :=
  <["name" := PStr "T"]> (<["place_id" := PStr "t"]>
  (<["rating" := PStr "4.6"]> {[ "user_ratings_total" := PInt 120 ]})).

Definition text_rating_env : Env :=
  env [hit "A" "a" (46 # 10) 120; text_rating_hit] (PInt 7) (PInt 11) ∅.

(** Hits with holes: "N" has no rating, "M" has no review count. *)
Definition no_rating_hit : dict :=
  <["name" := PStr "N"]> (<["place_id" := PStr "n"]>
  {[ "user_ratings_total" := PInt 40 ]}).

Definition no_count_hit : dict :=
  <["name" := PStr "M"]> (<["place_id" := PStr "m"]>
  {[ "rating" := PFloat (49 # 10) ]}).

Definition patchy_hits : list dict :=
  [hit "A" "a" (46 # 10) 120; no_rating_hit; no_count_hit; anonymous_hit].


Definition patchy_env : Env := env patchy_hits (PInt 7) (PInt 11) ∅.

(** A store with four candidates: "A" and "B" have reviews, the place
    service knows no place "x" and raises for "X", "C" has no review. *)
Definition w4 : World :=
  {| heap := <[0%nat := spot "A" "a" (46 # 10) 120]>
             (<[1%nat := spot "X" "x" (49 # 10) 12]>
             (<[2%nat := spot "B" "b" (48 # 10) 87]>
             (<[3%nat := spot "C" "c" (47 # 10) 15]> ∅)));
     log := [] |}.

(** A single hit, whose place has no review. *)
Definition quiet_env : Env := env [hit "C" "c" (47 # 10) 15] (PInt 7) (PInt 11) ∅.

(** The services of [lisbon_env] with a Gemini library that has none of
    the tool constructors. *)
Definition toolless_env : Env := {|
  gmaps_geocode_oracle := gmaps_geocode_oracle lisbon_env;
  gmaps_places_nearby_oracle := gmaps_places_nearby_oracle lisbon_env;
  gmaps_place_oracle := gmaps_place_oracle lisbon_env;
  generate_content_oracle := generate_content_oracle lisbon_env;
  types_oracle := λ _, Exc
|}.

End Demo.

(** * Verification *)

(** ** Running the monad *)

Lemma bind_val {A B} (m : M A) (f : A → M B) w w' a :
  m w = (w', Val a) → (m ≫= f) w = f a w'.
Proof. intros H. unfold mbind, M_bind. by rewrite H. Qed.

Lemma bind_exc {A B} (m : M A) (f : A → M B) w w' :
  m w = (w', Exc) → (m ≫= f) w = (w', Exc).
Proof. intros H. unfold mbind, M_bind. by rewrite H. Qed.

Lemma bind_lift_val {A B} (r : res A) (f : A → M B) w a :
  r = Val a → (lift r ≫= f) w = f a w.
Proof. intros ->. done. Qed.

(** ** Discovery *)

Section Discovery.

Variable env : Env.

Lemma eligibleb_spec min_rating max_reviews place :
  eligibleb min_rating max_reviews place = true ↔
  eligible min_rating max_reviews place.
Proof.
  unfold eligibleb, eligible. split.
  - destruct (as_num (hit_rating place)) as [r|]; [|done].
    destruct (as_num (hit_review_count place)) as [c|]; [|done].
    rewrite !andb_true_iff, negb_true_iff. intros [[H1 H2] H3].
    exists r, c. repeat split; try done.
    + by apply Qle_bool_iff.
    + apply Qnot_le_lt. intros Hle. apply Qle_bool_iff in Hle. congruence.
    + by apply Qle_bool_iff.
  - intros (r & c & -> & -> & H1 & H2 & H3).
    rewrite !andb_true_iff, negb_true_iff. repeat split.
    + by apply Qle_bool_iff.
    + destruct (Qle_bool c 0) eqn:E; [|done].
      apply Qle_bool_iff in E. by apply Qlt_not_le in H2.
    + by apply Qle_bool_iff.
Qed.

#[global] Instance eligible_dec min_rating max_reviews place :
  Decision (eligible min_rating max_reviews place).
Proof.
  destruct (eligibleb min_rating max_reviews place) eqn:E.
  - left. by apply eligibleb_spec.
  - right. intros H. apply eligibleb_spec in H. congruence.
Defined.

(** The filter condition of the code is the spec's eligibility test on a
    hit whose rating and review count are numbers. *)
Lemma inverse_filter_numeric min_rating max_reviews place :
  numeric_hit place →
  inverse_filter (hit_rating place) (hit_review_count place)
    max_reviews min_rating
  = Val (eligibleb min_rating max_reviews place).
Proof.
  intros [[r Hr] [c Hc]].
  unfold inverse_filter, eligibleb, py_ge, py_le, py_gt. rewrite Hr, Hc. simpl.
  destruct (Qle_bool min_rating r); simpl; [|done].
  destruct (Qle_bool c (inject_Z max_reviews)); simpl.
  - by rewrite andb_true_r.
  - by rewrite andb_false_r.
Qed.

Lemma agent1_loop_numeric hits max_reviews min_rating unseen_spots :
  Forall numeric_hit hits →
  agent1_loop (PDict <$> hits) max_reviews min_rating unseen_spots
  = Val (unseen_spots
         ++ (candidate_of <$> filter (eligible min_rating max_reviews) hits)).
Proof.
  intros Hnum. revert unseen_spots.
  induction Hnum as [|place hits Hp _ IH]; intros unseen_spots; simpl.
  - by rewrite app_nil_r.
  - fold (hit_rating place) (hit_review_count place).
    rewrite (inverse_filter_numeric _ _ _ Hp). simpl.
    rewrite filter_cons.
    destruct (eligibleb min_rating max_reviews place) eqn:E.
    + rewrite decide_True by (by apply eligibleb_spec).
      rewrite IH. simpl. by rewrite <- app_assoc.
    + rewrite decide_False; [apply IH|].
      intros H. apply eligibleb_spec in H. congruence.
Qed.



Lemma new_spot_rating name place_id rating review_count :
  new_spot name place_id rating review_count !! "rating" = Some rating.
Proof. reflexivity. Qed.

Lemma new_spot_review_count name place_id rating review_count :
  new_spot name place_id rating review_count !! "review_count"
  = Some review_count.
Proof. reflexivity. Qed.

(** The rating and review count of a hit can be read back from its
    Candidate, and they decide eligibility. *)
Lemma candidate_of_eligible min_rating max_reviews p p' :
  candidate_of p = candidate_of p' →
  eligible min_rating max_reviews p → eligible min_rating max_reviews p'.
Proof.
  intros Heq.
  assert (hit_rating p = hit_rating p') as Hr.
  { assert (candidate_of p !! "rating" = candidate_of p' !! "rating") as H
      by (by rewrite Heq).
    unfold candidate_of in H. rewrite !new_spot_rating in H. congruence. }
  assert (hit_review_count p = hit_review_count p') as Hc.
  { assert (candidate_of p !! "review_count" = candidate_of p' !! "review_count")
      as H by (by rewrite Heq).
    unfold candidate_of in H. rewrite !new_spot_review_count in H.
    congruence. }
  unfold eligible. by rewrite Hr, Hc.
Qed.

(** Discovery on a successful search whose raw hits are numeric: it
    returns, in raw-result order, the Candidates of the eligible hits. *)
Lemma agent1_returns_eligible city query max_reviews min_rating radius_m
    w w1 raw_results hits :
  agent1_search env city query radius_m
    (emit (EvWrite (MsgAgent1Searching query city)) w)
    = (w1, Val (Some raw_results)) →
  py_get raw_results "results" (PList []) = Val (PList (PDict <$> hits)) →
  Forall numeric_hit hits →
  let unseen_spots :=
    candidate_of <$> filter (eligible min_rating max_reviews) hits in
  agent1_find_unseen_spots env city query max_reviews min_rating radius_m w
    = (emit (EvWrite (MsgAgent1Found (length unseen_spots))) w1,
       Val unseen_spots).
Proof.
  intros Hsearch Hresults Hnum unseen_spots.
  unfold agent1_find_unseen_spots.
  unfold mbind at 1, M_bind at 1; simpl.
  erewrite bind_val; last first.
  { unfold try_catch. by rewrite Hsearch. }
  simpl. rewrite (bind_lift_val _ _ _ _ Hresults).
  erewrite bind_lift_val; [|done].
  erewrite bind_lift_val; [|by apply agent1_loop_numeric].
  done.
Qed.

Lemma candidate_in_output min_rating max_reviews (hits : list dict) place :
  place ∈ hits →
  candidate_of place
    ∈ candidate_of <$> filter (eligible min_rating max_reviews) hits
  ↔ eligible min_rating max_reviews place.
Proof.
  intros Hin. rewrite list_elem_of_fmap. split.
  - intros (p' & Heq & Hp'). apply list_elem_of_filter in Hp' as [Hel _].
    by apply (candidate_of_eligible _ _ p' place).
  - intros Hel. exists place. split; [done|].
    by apply list_elem_of_filter.
Qed.

(** C1. When the geocoding and the nearby search succeed and the raw hits
    carry numeric rating and review-count fields (or none), Discovery
    returns the Candidates of exactly the hits with rating ≥ min_rating
    and 0 < review_count ≤ max_reviews (absent fields read as 0), in the
    order of the raw results: a hit's Candidate is in the output if and
    only if the hit is eligible. *)
Theorem agent1_inverse_filter city query max_reviews min_rating radius_m
    w w1 raw_results hits :
  agent1_search env city query radius_m
    (emit (EvWrite (MsgAgent1Searching query city)) w)
    = (w1, Val (Some raw_results)) →
  py_get raw_results "results" (PList []) = Val (PList (PDict <$> hits)) →
  Forall numeric_hit hits →
  let unseen_spots :=
    candidate_of <$> filter (eligible min_rating max_reviews) hits in
  agent1_find_unseen_spots env city query max_reviews min_rating radius_m w
    = (emit (EvWrite (MsgAgent1Found (length unseen_spots))) w1,
       Val unseen_spots)
  ∧ ∀ place, place ∈ hits →
      (candidate_of place ∈ unseen_spots
       ↔ eligible min_rating max_reviews place).
Proof.
  intros Hsearch Hresults Hnum unseen_spots. split.
  - by eapply agent1_returns_eligible.
  - intros place Hin. by apply candidate_in_output.
Qed.







End Discovery.

Lemma lisbon_hits_numeric : Forall numeric_hit Demo.lisbon_hits.
Proof. repeat constructor; eexists; vm_compute; reflexivity. Qed.

Lemma agent1_inverse_filter_witness :
  agent1_find_unseen_spots Demo.lisbon_env "Lisbon, Portugal" "cozy cafe"
    500 (45 # 10) 3000 Demo.w0
  = (emit (EvWrite (MsgAgent1Found 2)) Demo.lisbon_searched,
     Val [Demo.spot "A" "a" (46 # 10) 120;
          new_spot PNone PNone (PFloat (46 # 10)) (PInt 120)]).
Proof.
  refine (proj1 (agent1_inverse_filter Demo.lisbon_env "Lisbon, Portugal"
    "cozy cafe" 500 (45 # 10) 3000 Demo.w0 Demo.lisbon_searched
    Demo.lisbon_results Demo.lisbon_hits _ _ _)).
  - vm_compute. reflexivity.
  - reflexivity.
  - exact lisbon_hits_numeric.
Defined.




(** The run of the witness: the hit without rating and the hit without
    review count are in the raw results and are dropped without a
    message; the hit without name and place id is kept. *)
Example agent1_patchy_run :
  Demo.no_rating_hit ∈ Demo.patchy_hits
  ∧ Demo.no_rating_hit !! "rating" = None
  ∧ Demo.no_count_hit ∈ Demo.patchy_hits
  ∧ Demo.no_count_hit !! "user_ratings_total" = None
  ∧ agent1_find_unseen_spots Demo.patchy_env "Lisbon, Portugal" "cozy cafe"
      500 (45 # 10) 3000 Demo.w0
    = (emit (EvWrite (MsgAgent1Found 2)) Demo.lisbon_searched,
       Val [Demo.spot "A" "a" (46 # 10) 120;
            new_spot PNone PNone (PFloat (46 # 10)) (PInt 120)]).
Proof.
  split; [by right; left|]. split; [reflexivity|].
  split; [by right; right; left|]. split; [reflexivity|].
  vm_compute. reflexivity.
Qed.
(** ** VibeScorer *)

(** *** Computations that leave the store alone *)

Definition keeps_heap {A} (m : M A) : Prop := ∀ w, heap (m w).1 = heap w.

Lemma keeps_heap_ret {A} (a : A) : keeps_heap (mret a : M A).
Proof. by intros w. Qed.

Lemma keeps_heap_lift {A} (r : res A) : keeps_heap (lift r).
Proof. by intros w. Qed.

Lemma keeps_heap_bind {A B} (m : M A) (f : A → M B) :
  keeps_heap m → (∀ a, keeps_heap (f a)) → keeps_heap (m ≫= f).
Proof.
  intros Hm Hf w. unfold mbind, M_bind. specialize (Hm w).
  destruct (m w) as [w1 [a|]]; [|done].
  rewrite Hf. done.
Qed.

Lemma keeps_heap_spot_item spot k : keeps_heap (spot_item spot k).
Proof. by intros w. Qed.

Lemma keeps_heap_st_write m : keeps_heap (st_write m).
Proof. by intros w. Qed.

Lemma keeps_heap_st_error m : keeps_heap (st_error m).
Proof. by intros w. Qed.

Lemma keeps_heap_st_warning m : keeps_heap (st_warning m).
Proof. by intros w. Qed.

Lemma keeps_heap_gmaps_place env pid : keeps_heap (gmaps_place env pid).
Proof. by intros w. Qed.

Lemma keeps_heap_generate_content env p f : keeps_heap (generate_content env p f).
Proof. by intros w. Qed.

Lemma keeps_heap_try_catch {A} (body handler : M A) :
  keeps_heap body → keeps_heap handler → keeps_heap (try_catch body handler).
Proof.
  intros Hb Hh w. unfold try_catch. specialize (Hb w).
  destruct (body w) as [w1 [a|]]; [done|].
  rewrite Hh. done.
Qed.

Create HintDb keeps_heap.
#[export] Hint Resolve keeps_heap_ret keeps_heap_lift keeps_heap_spot_item
  keeps_heap_st_write keeps_heap_st_error keeps_heap_st_warning
  keeps_heap_gmaps_place keeps_heap_generate_content : keeps_heap.

(** Chains of binds over store-preserving steps preserve the store. *)
Ltac keeps_heap :=
  repeat first
    [ apply keeps_heap_bind; [solve [auto with keeps_heap] | intros]
    | match goal with |- keeps_heap (if ?b then _ else _) => destruct b end
    | solve [auto with keeps_heap] ].

Section VibeScorer.

Variable env : Env.
Variable str_as_int : string → option Z.
Variable user_vibe : string.

Lemma keeps_heap_fetch_details spot : keeps_heap (fetch_details env spot).
Proof. unfold fetch_details. keeps_heap. Qed.

Lemma keeps_heap_parse_analysis spot response :
  keeps_heap (parse_analysis str_as_int spot response).
Proof. unfold parse_analysis. keeps_heap. Qed.

Lemma keeps_heap_ask_model spot reviews :
  keeps_heap (ask_model env str_as_int spot user_vibe reviews).
Proof.
  unfold ask_model. keeps_heap.
Qed.


(** *** The store under [spot[k] = v] *)

Lemma heap_setitem_lookup spot k v (h : gmap loc dict) l k' :
  (heap_setitem spot k v h !!! l) !! k'
  = if decide (l = spot ∧ k' = k) then Some v else (h !!! l) !! k'.
Proof.
  unfold heap_setitem. destruct (decide (l = spot)) as [->|Hl].
  - rewrite lookup_total_insert_eq. destruct (decide (k' = k)) as [->|Hk].
    + rewrite lookup_insert_eq. by rewrite decide_True.
    + rewrite lookup_insert_ne by done. rewrite decide_False; [done|].
      by intros [_ ?].
  - rewrite lookup_total_insert_ne by done. rewrite decide_False; [done|].
    by intros [? _].
Qed.

Lemma has_key_setitem spot k v h k' l :
  has_key h k' l → has_key (heap_setitem spot k v h) k' l.
Proof.
  unfold has_key. rewrite heap_setitem_lookup. by case_decide.
Qed.

Lemma has_key_setitem_eq spot k v h : has_key (heap_setitem spot k v h) k spot.
Proof.
  unfold has_key. rewrite heap_setitem_lookup. rewrite decide_True; eauto.
Qed.

(** *** One iteration *)

(** When the details are fetched, [spot['url']] is assigned, and nothing
    else in the store changes during the scoring. *)
Lemma score_spot_fetched spot w w1 reviews url :
  fetch_details env spot w = (w1, Val (reviews, url)) →
  heap (score_spot env str_as_int spot user_vibe w).1
  = heap_setitem spot "url" url (heap w).
Proof.
  intros E. unfold score_spot.
  pose proof (keeps_heap_fetch_details spot w) as Hf.
  rewrite E in Hf. cbn [fst] in Hf.
  rewrite (bind_val _ _ _ _ _ E).
  erewrite bind_val by reflexivity.
  match goal with |- heap (?m ?w').1 = _ =>
    assert (keeps_heap m) as Hk end.
  { cbn [fst snd]. destruct (negb (truthy reviews)); [keeps_heap|].
    apply keeps_heap_ask_model. }
  rewrite Hk. cbn [heap fst snd]. by rewrite Hf.
Qed.

(** When they are not, the scoring raises and the store is untouched. *)
Lemma score_spot_not_fetched spot w w1 :
  fetch_details env spot w = (w1, Exc) →
  score_spot env str_as_int spot user_vibe w = (w1, Exc) ∧ heap w1 = heap w.
Proof.
  intros E. pose proof (keeps_heap_fetch_details spot w) as Hf.
  rewrite E in Hf. split; [|done].
  unfold score_spot. by rewrite (bind_exc _ _ _ _ E).
Qed.

Lemma score_spot_heap spot w :
  (heap (score_spot env str_as_int spot user_vibe w).1 = heap w
   ∧ (score_spot env str_as_int spot user_vibe w).2 = Exc)
  ∨ (∃ w1 reviews url,
       fetch_details env spot w = (w1, Val (reviews, url))
       ∧ heap (score_spot env str_as_int spot user_vibe w).1
         = heap_setitem spot "url" url (heap w)).
Proof.
  destruct (fetch_details env spot w) as [w1 [[reviews url]|]] eqn:E.
  - right. exists w1, reviews, url. split; [done|].
    by eapply score_spot_fetched.
  - left. destruct (score_spot_not_fetched _ _ _ E) as [-> Hh]. done.
Qed.

(** The effect of one iteration on the store. *)
Inductive step_heap (spot : loc) (h : gmap loc dict) : gmap loc dict → Prop :=
| step_untouched : step_heap spot h h
| step_url url : step_heap spot h (heap_setitem spot "url" url h)
| step_scored url va :
    step_heap spot h
      (heap_setitem spot "vibe_analysis" (SpotVibeAnalysis_model_dump va)
         (heap_setitem spot "url" url h)).

Lemma keeps_heap_except_spot spot : keeps_heap (except_spot spot).
Proof. unfold except_spot. keeps_heap. Qed.

(** The world after an iteration does not depend on the list being
    accumulated. *)
Lemma analyze_spot_world spot analyzed_spots w :
  (analyze_spot env str_as_int spot user_vibe analyzed_spots w).1
  = world_after env str_as_int user_vibe spot w.
Proof.
  unfold world_after, analyze_spot, try_spot.
  destruct (score_spot env str_as_int spot user_vibe w) as [w1 [[va|]|]];
    [|done|].
  - unfold store_analysis, spot_setitem. cbv beta iota.
    destruct (spot_item spot "name" _) as [w2 [name|]]; [done|].
    by destruct (except_spot spot w2) as [w3 [[]|]].
  - by destruct (except_spot spot w1) as [w3 [[]|]].
Qed.

Lemma spot_item_has_key spot k w :
  has_key (heap w) k spot →
  ∃ v, spot_item spot k w = (w, Val v).
Proof.
  intros [v Hv]. exists v. unfold spot_item. by rewrite Hv.
Qed.

Lemma except_spot_named spot w :
  has_key (heap w) "name" spot → (except_spot spot w).2 = Val tt.
Proof.
  intros Hn. destruct (spot_item_has_key _ _ _ Hn) as [v Hv].
  unfold except_spot. erewrite bind_val by exact Hv. done.
Qed.

Lemma score_spot_keeps_key spot w k l :
  has_key (heap w) k l →
  has_key (heap (score_spot env str_as_int spot user_vibe w).1) k l.
Proof.
  intros Hk. destruct (score_spot_heap spot w) as [[-> _]|(?&?&?&_&->)];
    [done|by apply has_key_setitem].
Qed.

(** With a name on the candidate, an iteration never raises: it appends
    the spot exactly when its scoring succeeds. *)
Lemma analyze_spot_result spot analyzed_spots w :
  has_key (heap w) "name" spot →
  (analyze_spot env str_as_int spot user_vibe analyzed_spots w).2
  = Val (analyzed_spots
         ++ if decide (spot_outcome env str_as_int user_vibe spot w = Scored)
            then [spot] else []).
Proof.
  intros Hn. pose proof (score_spot_keeps_key spot w _ _ Hn) as Hn1.
  unfold analyze_spot, try_spot, spot_outcome.
  destruct (score_spot env str_as_int spot user_vibe w) as [w1 [[va|]|]];
    cbn [fst] in Hn1.
  - rewrite decide_True by done.
    unfold store_analysis, spot_setitem. cbv beta iota.
    match goal with |- context [spot_item spot "name" ?w'] =>
      destruct (spot_item_has_key spot "name" w') as [v ->] end.
    { cbn [heap]. by apply has_key_setitem. }
    done.
  - rewrite decide_False by done. by rewrite app_nil_r.
  - rewrite decide_False by done. rewrite app_nil_r.
    pose proof (except_spot_named _ _ Hn1) as He.
    by destruct (except_spot spot w1) as [w2 [[]|]].
Qed.

Lemma world_after_heap spot w :
  step_heap spot (heap w) (heap (world_after env str_as_int user_vibe spot w)).
Proof.
  unfold world_after, analyze_spot, try_spot.
  pose proof (score_spot_heap spot w) as Hs.
  destruct (score_spot env str_as_int spot user_vibe w) as [w1 [[va|]|]];
    cbn [fst snd] in Hs.
  - destruct Hs as [[_ ?]|(?&?&url&_&Hh)]; [done|].
    assert (heap (store_analysis spot va [] w1).1
            = heap_setitem spot "vibe_analysis"
                (SpotVibeAnalysis_model_dump va) (heap w1)) as Hst.
    { unfold store_analysis, spot_setitem, spot_item. cbv beta iota.
      by destruct (_ !! "name"). }
    destruct (store_analysis spot va [] w1) as [w2 [l [[]|]]];
      cbn [fst] in *.
    + rewrite Hst, Hh. constructor.
    + pose proof (keeps_heap_except_spot spot w2) as Hk.
      destruct (except_spot spot w2) as [w3 [[]|]]; cbn [fst] in *;
        rewrite Hk, Hst, Hh; constructor.
  - destruct Hs as [[_ ?]|(?&?&url&_&Hh)]; [done|]. cbn [fst].
    rewrite Hh. constructor.
  - pose proof (keeps_heap_except_spot spot w1) as Hk.
    destruct (except_spot spot w1) as [w3 [[]|]]; cbn [fst] in *; rewrite Hk;
      (destruct Hs as [[-> _]|(?&?&url&_&->)]; constructor).
Qed.

(** A candidate whose scoring succeeded carries its url and its
    analysis after the iteration. *)
Lemma world_after_scored spot w :
  spot_outcome env str_as_int user_vibe spot w = Scored →
  ∃ url va,
    heap (world_after env str_as_int user_vibe spot w)
    = heap_setitem spot "vibe_analysis" (SpotVibeAnalysis_model_dump va)
        (heap_setitem spot "url" url (heap w)).
Proof.
  unfold spot_outcome, world_after, analyze_spot, try_spot.
  pose proof (score_spot_heap spot w) as Hs.
  destruct (score_spot env str_as_int spot user_vibe w) as [w1 [[va|]|]];
    cbn [fst snd] in Hs; [|done..]. intros _.
  destruct Hs as [[_ ?]|(?&?&url&_&Hh)]; [done|].
  exists url, va.
  assert (heap (store_analysis spot va [] w1).1
          = heap_setitem spot "vibe_analysis"
              (SpotVibeAnalysis_model_dump va) (heap w1)) as Hst.
  { unfold store_analysis, spot_setitem, spot_item. cbv beta iota.
    by destruct (_ !! "name"). }
  destruct (store_analysis spot va [] w1) as [w2 [l [[]|]]]; cbn [fst] in *.
  - by rewrite Hst, Hh.
  - pose proof (keeps_heap_except_spot spot w2) as Hk.
    destruct (except_spot spot w2) as [w3 [[]|]]; cbn [fst] in *;
      by rewrite Hk, Hst, Hh.
Qed.

(** *** What an iteration preserves *)

Lemma step_heap_has_key spot h h' k l :
  step_heap spot h h' → has_key h k l → has_key h' k l.
Proof.
  intros [| |]; intros Hk; [done|by apply has_key_setitem|].
  by do 2 apply has_key_setitem.
Qed.

Lemma step_heap_analysed spot h h' l :
  step_heap spot h h' → analysed h l → analysed h' l.
Proof.
  unfold analysed. intros [|url|url va] [va0 Hva]; [by eauto|..].
  - exists va0. rewrite heap_setitem_lookup.
    rewrite decide_False; [done|]. by intros [_ ?].
  - rewrite !heap_setitem_lookup. destruct (decide (l = spot)) as [->|Hl].
    + exists va. by rewrite decide_True.
    + exists va0. rewrite !decide_False; [done|by intros [? _]..].
Qed.

Lemma world_after_has_key spot w k l :
  has_key (heap w) k l →
  has_key (heap (world_after env str_as_int user_vibe spot w)) k l.
Proof. apply step_heap_has_key with spot, world_after_heap. Qed.

Lemma world_after_analysed spot w l :
  analysed (heap w) l →
  analysed (heap (world_after env str_as_int user_vibe spot w)) l.
Proof. apply step_heap_analysed with spot, world_after_heap. Qed.

Lemma run_spots_has_key spots w k l :
  has_key (heap w) k l →
  has_key (heap (run_spots env str_as_int user_vibe spots w)) k l.
Proof.
  revert w. induction spots as [|spot rest IH]; intros w Hk; [done|].
  cbn [run_spots]. by apply IH, world_after_has_key.
Qed.

Lemma run_spots_analysed spots w l :
  analysed (heap w) l →
  analysed (heap (run_spots env str_as_int user_vibe spots w)) l.
Proof.
  revert w. induction spots as [|spot rest IH]; intros w Hk; [done|].
  cbn [run_spots]. by apply IH, world_after_analysed.
Qed.

Lemma run_spots_app spots1 spots2 w :
  run_spots env str_as_int user_vibe (spots1 ++ spots2) w
  = run_spots env str_as_int user_vibe spots2
      (run_spots env str_as_int user_vibe spots1 w).
Proof.
  revert w. induction spots1 as [|spot rest IH]; intros w; [done|].
  cbn [run_spots app]. apply IH.
Qed.

Lemma named_world_after spot spots w :
  named (heap w) spots →
  named (heap (world_after env str_as_int user_vibe spot w)) spots.
Proof.
  unfold named. intros H. eapply Forall_impl; [exact H|].
  intros l. apply world_after_has_key.
Qed.

(** *** The loop *)

(** On named candidates the loop runs every iteration, never raises, and
    appends, in input order, the candidates whose scoring succeeded. *)
Lemma agent2_loop_run spots analyzed_spots w :
  named (heap w) spots →
  agent2_loop env str_as_int spots user_vibe analyzed_spots w
  = (run_spots env str_as_int user_vibe spots w,
     Val (analyzed_spots ++ scored_spots env str_as_int user_vibe spots w)).
Proof.
  revert analyzed_spots w.
  induction spots as [|spot rest IH]; intros analyzed_spots w Hn.
  - cbn. by rewrite app_nil_r.
  - apply Forall_cons in Hn as [Hspot Hrest].
    cbn [agent2_loop run_spots scored_spots].
    pose proof (analyze_spot_world spot analyzed_spots w) as Hw.
    pose proof (analyze_spot_result spot analyzed_spots w Hspot) as Hr.
    destruct (analyze_spot env str_as_int spot user_vibe analyzed_spots w)
      as [w1 r] eqn:E. cbn [fst snd] in *. subst w1 r.
    rewrite (bind_val _ _ _ _ _ E).
    rewrite IH by by apply named_world_after.
    by rewrite app_assoc.
Qed.

Lemma scored_spots_sublist spots w :
  scored_spots env str_as_int user_vibe spots w `sublist_of` spots.
Proof.
  revert w. induction spots as [|spot rest IH]; intros w; [done|].
  cbn [scored_spots]. case_decide; cbn [app].
  - by apply sublist_skip.
  - by apply sublist_cons.
Qed.

(** Every candidate the loop appended carries, when the loop ends, its
    url and the dump of a validated analysis. *)
Lemma scored_spots_analysed spots w l :
  l ∈ scored_spots env str_as_int user_vibe spots w →
  analysed (heap (run_spots env str_as_int user_vibe spots w)) l
  ∧ has_key (heap (run_spots env str_as_int user_vibe spots w)) "url" l.
Proof.
  revert w. induction spots as [|spot rest IH]; intros w.
  - by intros ?%elem_of_nil.
  - cbn [scored_spots run_spots]. rewrite elem_of_app.
    intros [Hl|Hl]; [|by apply IH].
    case_decide as Hs; [|by apply elem_of_nil in Hl].
    apply list_elem_of_singleton in Hl as ->.
    destruct (world_after_scored _ _ Hs) as (url & va & Hh).
    split.
    + apply run_spots_analysed. exists va. rewrite Hh, heap_setitem_lookup.
      by rewrite decide_True.
    + apply run_spots_has_key. rewrite Hh.
      apply has_key_setitem, has_key_setitem_eq.
Qed.


(** *** The sort of line 192 *)

#[local] Instance desc_trans : Transitive desc.
Proof. unfold desc. intros a b c ??. lia. Qed.

Lemma insert_desc_perm x l : insert_desc x l ≡ₚ x :: l.
Proof.
  induction l as [|y l IH]; cbn [insert_desc]; [done|].
  destruct (y.1 <=? x.1); [done|]. rewrite IH. apply Permutation_swap.
Qed.

Lemma sort_desc_perm l : sort_desc l ≡ₚ l.
Proof.
  induction l as [|x l IH]; cbn [sort_desc]; [done|].
  by rewrite insert_desc_perm, IH.
Qed.

Lemma insert_desc_sorted x l : Sorted desc l → Sorted desc (insert_desc x l).
Proof.
  induction l as [|y l IH]; intros Hl; cbn [insert_desc].
  - by repeat constructor.
  - destruct (Z.leb_spec y.1 x.1) as [Hle|Hlt].
    + constructor; [done|]. by constructor.
    + apply Sorted_inv in Hl as [Hl Hhd]. constructor; [by apply IH|].
      destruct l as [|z l]; cbn [insert_desc].
      * constructor. unfold desc. lia.
      * destruct (z.1 <=? x.1).
        -- constructor. unfold desc. lia.
        -- constructor. by apply HdRel_inv in Hhd.
Qed.

Lemma sort_desc_sorted l : StronglySorted desc (sort_desc l).
Proof.
  apply Sorted_StronglySorted; [apply _|].
  induction l as [|x l IH]; cbn [sort_desc]; [constructor|].
  by apply insert_desc_sorted.
Qed.

(** Stability: the elements of any one key keep their relative order. *)
Lemma insert_desc_stable k x l :
  filter (λ y : Z * loc, y.1 = k) (insert_desc x l)
  = filter (λ y : Z * loc, y.1 = k) (x :: l).
Proof.
  induction l as [|y l IH]; cbn [insert_desc]; [done|].
  destruct (Z.leb_spec y.1 x.1) as [Hle|Hlt]; [done|].
  rewrite filter_cons, IH, !filter_cons.
  repeat case_decide; try done. lia.
Qed.

Lemma sort_desc_stable k l :
  filter (λ y : Z * loc, y.1 = k) (sort_desc l)
  = filter (λ y : Z * loc, y.1 = k) l.
Proof.
  induction l as [|x l IH]; cbn [sort_desc]; [done|].
  by rewrite insert_desc_stable, !filter_cons, IH.
Qed.

Lemma StronglySorted_lookup {A} (R : relation A) (l : list A) i j a b :
  StronglySorted R l → (i < j)%nat →
  l !! i = Some a → l !! j = Some b → R a b.
Proof.
  intros Hl. revert i j. induction Hl as [|x l Hl IH Hall]; intros i j Hij Ha Hb.
  - by rewrite lookup_nil in Ha.
  - destruct j as [|j]; [lia|]. cbn in Hb. destruct i as [|i].
    + cbn in Ha. injection Ha as ->.
      rewrite Forall_forall in Hall. apply Hall.
      by eapply list_elem_of_lookup_2.
    + cbn in Ha. apply (IH i j); [lia|done..].
Qed.

Lemma analysed_vibe_score h spot :
  analysed h spot → is_Some (vibe_score h spot).
Proof.
  intros [va Hva]. exists (vibe_match_score va).
  unfold vibe_score, sort_key. by rewrite Hva.
Qed.

Lemma sort_keys_analysed h spots :
  Forall (analysed h) spots →
  ∃ keyed, sort_keys h spots = Val keyed
           ∧ keyed.*2 = spots ∧ keyed_by_score h keyed.
Proof.
  induction 1 as [|spot spots Hspot _ (keyed & Hk & Hsnd & Hsc)].
  - exists []. by repeat split; try constructor.
  - destruct (analysed_vibe_score _ _ Hspot) as [n Hn].
    exists ((n, spot) :: keyed). cbn [sort_keys].
    unfold vibe_score in Hn.
    destruct (sort_key h spot) as [n'|] eqn:E; [|done].
    injection Hn as ->. rewrite Hk. cbn. rewrite Hsnd.
    repeat split. constructor; [|done]. cbn. unfold vibe_score. by rewrite E.
Qed.

Lemma keyed_filter_score h k (keyed : list (Z * loc)) :
  keyed_by_score h keyed →
  filter (λ spot, vibe_score h spot = Some k) keyed.*2
  = (filter (λ y : Z * loc, y.1 = k) keyed).*2.
Proof.
  induction 1 as [|y keyed Hy _ IH]; [done|].
  cbn [fmap list_fmap]. rewrite !filter_cons, IH, Hy.
  destruct (decide (y.1 = k)) as [->|Hne].
  - by rewrite decide_True.
  - rewrite decide_False; [done|]. congruence.
Qed.

(** The list line 192 leaves: sorted by descending score, a stable
    rearrangement of the list the loop built. *)
Lemma sorted_by_score h keyed :
  keyed_by_score h keyed →
  StronglySorted (by_score h) (sort_desc keyed).*2
  ∧ (sort_desc keyed).*2 ≡ₚ keyed.*2
  ∧ ∀ k, filter (λ spot, vibe_score h spot = Some k) (sort_desc keyed).*2
         = filter (λ spot, vibe_score h spot = Some k) keyed.*2.
Proof.
  intros Hk.
  assert (keyed_by_score h (sort_desc keyed)) as Hk'.
  { unfold keyed_by_score. by rewrite sort_desc_perm. }
  split; [|split].
  - pose proof (sort_desc_sorted keyed) as Hs.
    induction Hs as [|y l Hs IH Hall]; [constructor|].
    apply Forall_cons in Hk' as [Hy Hl].
    cbn [fmap list_fmap]. constructor; [by apply IH|].
    rewrite Forall_fmap. rewrite Forall_forall in Hall, Hl.
    apply Forall_forall. intros z Hz. cbn.
    exists y.1, z.1. split; [done|]. split; [by apply Hl|]. by apply Hall.
  - by rewrite sort_desc_perm.
  - intros k. rewrite !keyed_filter_score by done.
    by rewrite sort_desc_stable.
Qed.


(** *** Fetched details are stored *)

(** After the scoring, an iteration changes the store at most by storing
    the analysis. *)
Lemma world_after_from_score spot w :
  heap (world_after env str_as_int user_vibe spot w)
  = heap (score_spot env str_as_int spot user_vibe w).1
  ∨ ∃ va, heap (world_after env str_as_int user_vibe spot w)
          = heap_setitem spot "vibe_analysis" (SpotVibeAnalysis_model_dump va)
              (heap (score_spot env str_as_int spot user_vibe w).1).
Proof.
  unfold world_after, analyze_spot, try_spot.
  destruct (score_spot env str_as_int spot user_vibe w) as [w1 [[va|]|]];
    cbn [fst snd].
  - right. exists va.
    assert (heap (store_analysis spot va [] w1).1
            = heap_setitem spot "vibe_analysis"
                (SpotVibeAnalysis_model_dump va) (heap w1)) as Hst.
    { unfold store_analysis, spot_setitem, spot_item. cbv beta iota.
      by destruct (_ !! "name"). }
    destruct (store_analysis spot va [] w1) as [w2 [l [[]|]]];
      cbn [fst] in *; [done|].
    pose proof (keeps_heap_except_spot spot w2) as Hk.
    destruct (except_spot spot w2) as [w3 [[]|]]; cbn [fst] in *; congruence.
  - by left.
  - left. pose proof (keeps_heap_except_spot spot w1) as Hk.
    by destruct (except_spot spot w1) as [w3 [[]|]].
Qed.

Lemma world_after_fetched spot w w1 reviews url :
  fetch_details env spot w = (w1, Val (reviews, url)) →
  (heap (world_after env str_as_int user_vibe spot w) !!! spot) !! "url"
  = Some url.
Proof.
  intros E. pose proof (score_spot_fetched _ _ _ _ _ E) as Hs.
  destruct (world_after_from_score spot w) as [->|[va ->]]; rewrite Hs.
  - rewrite heap_setitem_lookup. by rewrite decide_True.
  - rewrite !heap_setitem_lookup. rewrite decide_False by (by intros [_ ?]).
    by rewrite decide_True.
Qed.

(** The oracle-level reading of a successful fetch is what the code's
    first step computes. *)
Lemma fetch_details_fetched spot w url :
  details_fetched env spot w url →
  ∃ reviews,
    fetch_details env spot w
    = (emit (EvPlace (default PNone ((heap w !!! spot) !! "place_id"))) w,
       Val (reviews, url)).
Proof.
  intros (place_id & place_details & result & reviews & Hp & Ho & Hr & Hrev & Hu).
  exists reviews. unfold fetch_details.
  erewrite bind_val; last first.
  { unfold spot_item. by rewrite Hp. }
  erewrite bind_val; last first.
  { unfold gmaps_place. by rewrite Ho. }
  rewrite (bind_lift_val _ _ _ _ Hr), (bind_lift_val _ _ _ _ Hrev).
  rewrite (bind_lift_val _ _ _ _ Hr), (bind_lift_val _ _ _ _ Hu).
  by rewrite Hp.
Qed.

(** *** The frame of an iteration *)

(** An iteration touches nothing but the keys ['url'] and
    ['vibe_analysis'] of its own candidate. *)
Lemma step_heap_frame spot h h' l k :
  step_heap spot h h' →
  l ≠ spot ∨ (k ≠ "url" ∧ k ≠ "vibe_analysis") →
  (h' !!! l) !! k = (h !!! l) !! k.
Proof.
  intros Hstep Hlk.
  assert (∀ v k' h0, k' = "url" ∨ k' = "vibe_analysis" →
            (heap_setitem spot k' v h0 !!! l) !! k = (h0 !!! l) !! k) as Hset.
  { intros v k' h0 Hk'. rewrite heap_setitem_lookup.
    rewrite decide_False; [done|]. intros [-> ->].
    destruct Hlk as [?|[??]]; [done|]. by destruct Hk'. }
  destruct Hstep; [done|..]; rewrite !Hset; auto.
Qed.

Lemma run_spots_frame spots w l k :
  l ∉ spots ∨ (k ≠ "url" ∧ k ≠ "vibe_analysis") →
  (heap (run_spots env str_as_int user_vibe spots w) !!! l) !! k
  = (heap w !!! l) !! k.
Proof.
  revert w. induction spots as [|spot rest IH]; intros w Hlk; [done|].
  cbn [run_spots]. rewrite IH.
  - apply step_heap_frame with spot; [apply world_after_heap|].
    destruct Hlk as [Hl|?]; [left|by right].
    intros ->. apply Hl. by left.
  - destruct Hlk as [Hl|?]; [left|by right].
    intros ?. apply Hl. by right.
Qed.

(** *** The trace only grows *)

Definition grows {A} (m : M A) : Prop := ∀ w, log w `prefix_of` log (m w).1.

Lemma grows_ret {A} (a : A) : grows (mret a : M A).
Proof. by intros w. Qed.

Lemma grows_lift {A} (r : res A) : grows (lift r).
Proof. by intros w. Qed.

Lemma grows_bind {A B} (m : M A) (f : A → M B) :
  grows m → (∀ a, grows (f a)) → grows (m ≫= f).
Proof.
  intros Hm Hf w. unfold mbind, M_bind. specialize (Hm w).
  destruct (m w) as [w1 [a|]]; [|done].
  etrans; [exact Hm|apply Hf].
Qed.

Lemma grows_spot_item spot k : grows (spot_item spot k).
Proof. by intros w. Qed.

Lemma grows_spot_setitem spot k v : grows (spot_setitem spot k v).
Proof. by intros w. Qed.

Lemma grows_st_write m : grows (st_write m).
Proof. intros w. by apply prefix_app_r. Qed.

Lemma grows_st_warning m : grows (st_warning m).
Proof. intros w. by apply prefix_app_r. Qed.

Lemma grows_gmaps_place pid : grows (gmaps_place env pid).
Proof. intros w. by apply prefix_app_r. Qed.

Lemma grows_generate_content p f : grows (generate_content env p f).
Proof. intros w. by apply prefix_app_r. Qed.

Create HintDb grows.
#[local] Hint Resolve grows_ret grows_lift grows_spot_item grows_spot_setitem
  grows_st_write grows_st_warning grows_gmaps_place grows_generate_content
  : grows.

Ltac grows :=
  repeat first
    [ apply grows_bind; [solve [auto with grows] | intros]
    | match goal with |- grows (if ?b then _ else _) => destruct b end
    | solve [auto with grows] ].

Lemma grows_parse_analysis spot response :
  grows (parse_analysis str_as_int spot response).
Proof. unfold parse_analysis. grows. Qed.

Lemma grows_ask_model spot reviews :
  grows (ask_model env str_as_int spot user_vibe reviews).
Proof. unfold ask_model. grows. Qed.

Lemma grows_fetch_details spot : grows (fetch_details env spot).
Proof. unfold fetch_details. grows. Qed.

Lemma grows_score_spot spot : grows (score_spot env str_as_int spot user_vibe).
Proof.
  unfold score_spot. apply grows_bind; [apply grows_fetch_details|].
  intros details. grows.
Qed.

Lemma grows_except_spot spot : grows (except_spot spot).
Proof. unfold except_spot. grows. Qed.

Lemma world_after_log spot w :
  log (score_spot env str_as_int spot user_vibe w).1
    `prefix_of` log (world_after env str_as_int user_vibe spot w).
Proof.
  unfold world_after, analyze_spot, try_spot.
  destruct (score_spot env str_as_int spot user_vibe w) as [w1 [[va|]|]];
    cbn [fst snd].
  - assert (log w1 `prefix_of` log (store_analysis spot va [] w1).1) as Hst.
    { unfold store_analysis, spot_setitem, spot_item. cbv beta iota.
      destruct (_ !! "name"); cbn; [by apply prefix_app_r|done]. }
    destruct (store_analysis spot va [] w1) as [w2 [l [[]|]]];
      cbn [fst] in *; [done|].
    pose proof (grows_except_spot spot w2) as Hk.
    destruct (except_spot spot w2) as [w3 [[]|]]; cbn [fst] in *;
      by etrans.
  - done.
  - pose proof (grows_except_spot spot w1) as Hk.
    by destruct (except_spot spot w1) as [w3 [[]|]].
Qed.

Lemma run_spots_log spots w :
  log w `prefix_of` log (run_spots env str_as_int user_vibe spots w).
Proof.
  revert w. induction spots as [|spot rest IH]; intros w; [done|].
  cbn [run_spots]. etrans; [|apply IH].
  etrans; [apply grows_score_spot|apply world_after_log].
Qed.


(** *** The whole of Agent 2 *)

Lemma run_spots_take_S spots i spot w :
  spots !! i = Some spot →
  run_spots env str_as_int user_vibe (take (S i) spots) w
  = world_after env str_as_int user_vibe spot
      (run_spots env str_as_int user_vibe (take i spots) w).
Proof.
  intros Hi. rewrite (take_S_r _ _ _ Hi). by rewrite run_spots_app.
Qed.

Lemma run_spots_take_prefix spots i w :
  log (run_spots env str_as_int user_vibe (take i spots) w)
    `prefix_of` log (run_spots env str_as_int user_vibe spots w).
Proof.
  rewrite <- (take_drop i spots) at 2. rewrite run_spots_app.
  apply run_spots_log.
Qed.

(** A candidate whose scoring succeeds at its turn is in the list the
    loop builds. *)
Lemma scored_spots_lookup spots i spot w :
  spots !! i = Some spot →
  spot_outcome env str_as_int user_vibe spot
    (run_spots env str_as_int user_vibe (take i spots) w) = Scored →
  spot ∈ scored_spots env str_as_int user_vibe spots w.
Proof.
  revert i w. induction spots as [|s rest IH]; intros i w Hi Ho.
  - by rewrite lookup_nil in Hi.
  - cbn [scored_spots]. apply elem_of_app. destruct i as [|i].
    + cbn in Hi, Ho. injection Hi as ->. left.
      rewrite decide_True by done. by apply list_elem_of_singleton.
    + right. cbn in Hi, Ho. by apply (IH i).
Qed.

Lemma scored_spots_elem_of spots w spot :
  spot ∈ scored_spots env str_as_int user_vibe spots w → spot ∈ spots.
Proof. intros H. eapply elem_of_sublist; [exact H|apply scored_spots_sublist]. Qed.

(** On named candidates Agent 2 returns: the world is the one the loop
    leaves, plus the closing message, and the result is the sorted list
    of the candidates the loop appended. *)
Lemma agent2_returns spots w :
  types_oracle env "analyze_spot_vibe" = Val tt →
  named (heap w) spots →
  let w0 := emit (EvWrite (MsgAgent2Analyzing (length spots))) w in
  let w1 := run_spots env str_as_int user_vibe spots w0 in
  let scored := scored_spots env str_as_int user_vibe spots w0 in
  ∃ keyed top,
    keyed.*2 = scored ∧ keyed_by_score (heap w1) keyed ∧
    agent2_analyze_vibe env str_as_int spots user_vibe w
    = (emit (EvWrite (MsgAgent2Finished top)) w1, Val (sort_desc keyed).*2).
Proof.
  intros Ht Hn w0 w1 scored.
  destruct (sort_keys_analysed (heap w1) scored) as (keyed & Hk & Hsnd & Hsc).
  { apply Forall_forall. intros l Hl. by apply scored_spots_analysed. }
  assert (∃ top,
    match (sort_desc keyed).*2 with
    | [] => mret (PStr "None")
    | first :: _ => spot_item first "name"
    end w1 = (w1, Val top)) as [top Htop].
  { destruct ((sort_desc keyed).*2) as [|first rest] eqn:E; [by eexists|].
    apply spot_item_has_key.
    assert (first ∈ spots) as Hin.
    { apply (scored_spots_elem_of spots w0). fold scored. rewrite <- Hsnd.
      rewrite <- (sort_desc_perm keyed), E. by left. }
    apply run_spots_has_key. unfold named in Hn.
    rewrite Forall_forall in Hn. by apply Hn. }
  exists keyed, top. split; [done|]. split; [done|].
  unfold agent2_analyze_vibe.
  erewrite bind_val by reflexivity.
  erewrite bind_val by (unfold tool_setup; by rewrite Ht).
  erewrite bind_val by (by apply agent2_loop_run).
  erewrite bind_val; last first.
  { unfold sort_by_score. cbn [app]. fold w0 scored w1. by rewrite Hk. }
  erewrite bind_val by exact Htop.
  by erewrite bind_val by reflexivity.
Qed.


(** When the library cannot build the tool objects, Agent 2 raises right
    after its opening message: no candidate is looked at. *)
Lemma agent2_without_tools spots w :
  types_oracle env "analyze_spot_vibe" = Exc →
  agent2_analyze_vibe env str_as_int spots user_vibe w
  = (emit (EvWrite (MsgAgent2Analyzing (length spots))) w, Exc).
Proof.
  intros Ht. unfold agent2_analyze_vibe.
  erewrite bind_val by reflexivity.
  by erewrite bind_exc by (unfold tool_setup; by rewrite Ht).
Qed.

(** A statement about Agent 2 by cases on the set-up: either the library
    raises and so does Agent 2, right after its opening message, or the
    library returns and the loop runs. *)
Lemma agent2_by_setup (P : Prop) spots w :
  (types_oracle env "analyze_spot_vibe" = Val tt → P) →
  match types_oracle env "analyze_spot_vibe" with
  | Exc => agent2_analyze_vibe env str_as_int spots user_vibe w
           = (emit (EvWrite (MsgAgent2Analyzing (length spots))) w, Exc)
  | Val _ => P
  end.
Proof.
  intros HP. destruct (types_oracle env "analyze_spot_vibe") as [[]|] eqn:Ht.
  - by apply HP.
  - by apply agent2_without_tools.
Qed.

(** X1. When the library builds the tool objects of lines 117-133, on
    candidates that carry a 'name', Agent 2 returns the candidates
    whose scoring succeeded, each judged at its turn: a subsequence of
    the input rearranged by [list.sort(key=score, reverse=True)]. The
    result is in descending score order (scores read in the final
    store), and candidates of equal score keep their input order.
    When the library raises instead, so does Agent 2, right after its
    opening message. *)
Theorem agent2_sorted_stable spots w :
  named (heap w) spots →
  let scored :=
    scored_spots env str_as_int user_vibe spots
      (emit (EvWrite (MsgAgent2Analyzing (length spots))) w) in
  match types_oracle env "analyze_spot_vibe" with
  | Exc => agent2_analyze_vibe env str_as_int spots user_vibe w
           = (emit (EvWrite (MsgAgent2Analyzing (length spots))) w, Exc)
  | Val _ =>
      ∃ w' out,
        agent2_analyze_vibe env str_as_int spots user_vibe w = (w', Val out)
        ∧ scored `sublist_of` spots
        ∧ out ≡ₚ scored
        ∧ (∀ i j a b, (i < j)%nat → out !! i = Some a → out !! j = Some b →
             by_score (heap w') a b)
        ∧ (∀ k, filter (λ spot, vibe_score (heap w') spot = Some k) out
                = filter (λ spot, vibe_score (heap w') spot = Some k) scored)
  end.
Proof.
  intros Hn scored.
  apply agent2_by_setup. intros Ht.
  destruct (agent2_returns spots w Ht Hn) as (keyed & top & Hsnd & Hk & Hrun).
  destruct (sorted_by_score _ _ Hk) as (Hsorted & Hperm & Hstable).
  eexists _, _. split; [exact Hrun|]. cbn [heap emit].
  split; [apply scored_spots_sublist|].
  split; [by rewrite Hperm, Hsnd|].
  split.
  - intros i j a b. by apply StronglySorted_lookup.
  - intros k. rewrite Hstable. by rewrite Hsnd.
Qed.

(** C10. Agent 2 mutates its input candidates in place. When the library
    builds the tool objects and the candidates carry a 'name', Agent 2
    returns; every returned reference is one of the input references (the
    same object, not a copy); in the final store every key other than
    'url' and 'vibe_analysis' of an input candidate, and every object
    that is not an input candidate, is as it was; and a candidate whose
    detail fetch succeeds with [url] holds [url] under 'url' from its
    turn on and still has a 'url' when Agent 2 returns, whether it was
    then scored, skipped (for having no review, so that it is not in the
    output) or failed.
    When the library raises instead, so does Agent 2, right after its
    opening message. *)
Theorem agent2_in_place spots w :
  named (heap w) spots →
  let w0 := emit (EvWrite (MsgAgent2Analyzing (length spots))) w in
  match types_oracle env "analyze_spot_vibe" with
  | Exc => agent2_analyze_vibe env str_as_int spots user_vibe w = (w0, Exc)
  | Val _ =>
      ∃ w' out,
        agent2_analyze_vibe env str_as_int spots user_vibe w = (w', Val out)
        ∧ (∀ spot, spot ∈ out → spot ∈ spots)
        ∧ (∀ l k, l ∉ spots ∨ (k ≠ "url" ∧ k ≠ "vibe_analysis") →
             (heap w' !!! l) !! k = (heap w !!! l) !! k)
        ∧ (∀ i spot url, spots !! i = Some spot →
             details_fetched env spot
               (run_spots env str_as_int user_vibe (take i spots) w0) url →
             (heap (run_spots env str_as_int user_vibe (take (S i) spots) w0)
                !!! spot) !! "url" = Some url
             ∧ has_key (heap w') "url" spot)
  end.
Proof.
  intros Hn w0.
  apply agent2_by_setup. intros Ht.
  destruct (agent2_returns spots w Ht Hn) as (keyed & top & Hsnd & Hk & Hrun).
  eexists _, _. split; [exact Hrun|]. split; [|split].
  - intros spot Hin. eapply scored_spots_elem_of. rewrite <- Hsnd.
    by rewrite <- (sort_desc_perm keyed).
  - intros l k Hlk. cbn [heap emit]. by rewrite run_spots_frame.
  - intros i spot url Hi Hf.
    destruct (fetch_details_fetched _ _ _ Hf) as [reviews E].
    assert ((heap (run_spots env str_as_int user_vibe (take (S i) spots) w0)
               !!! spot) !! "url" = Some url) as Hurl.
    { rewrite (run_spots_take_S _ _ _ _ Hi). by eapply world_after_fetched. }
    split; [done|]. cbn [heap emit]. fold w0.
    rewrite <- (take_drop (S i) spots) at 1. rewrite run_spots_app.
    apply run_spots_has_key. unfold has_key. by rewrite Hurl.
Qed.


(** *** Every candidate gets its turn *)

Lemma bind_log_prefix {A B} (m : M A) (f : A → M B) w :
  (∀ a, grows (f a)) →
  log (m w).1 `prefix_of` log ((m ≫= f) w).1.
Proof.
  intros Hf. unfold mbind, M_bind.
  destruct (m w) as [w1 [a|]]; cbn [fst]; [apply Hf|done].
Qed.

(** The place-details request of a candidate with a place id is issued,
    whatever the service answers. *)
Lemma fetch_details_log spot w place_id :
  (heap w !!! spot) !! "place_id" = Some place_id →
  log w ++ [EvPlace place_id] `prefix_of` log (fetch_details env spot w).1.
Proof.
  intros Hp. unfold fetch_details.
  erewrite bind_val; last first.
  { unfold spot_item. by rewrite Hp. }
  etrans; [|apply bind_log_prefix]; [done|].
  intros place_details. grows.
Qed.

Lemma world_after_requests spot w place_id :
  (heap w !!! spot) !! "place_id" = Some place_id →
  EvPlace place_id ∈ log (world_after env str_as_int user_vibe spot w).
Proof.
  intros Hp.
  assert (log w ++ [EvPlace place_id]
          `prefix_of` log (world_after env str_as_int user_vibe spot w))
    as [evs ->].
  { etrans; [by apply fetch_details_log|].
    etrans; [|apply world_after_log].
    unfold score_spot. apply bind_log_prefix.
    intros details. grows. }
  rewrite !elem_of_app. left. right. by apply list_elem_of_singleton.
Qed.

(** X3. Failure isolation in the loop. When the library builds the tool
    objects, on candidates that carry a 'name', whatever
    the services answer and whichever candidates fail, Agent 2 does not
    raise, runs the iteration of every candidate (the place-details
    request of every candidate with a place id is in the trace), and
    returns every candidate whose scoring succeeds at its turn.
    When the library raises instead, so does Agent 2, right after its
    opening message. *)
Theorem agent2_failure_isolation spots w :
  named (heap w) spots →
  let w0 := emit (EvWrite (MsgAgent2Analyzing (length spots))) w in
  match types_oracle env "analyze_spot_vibe" with
  | Exc => agent2_analyze_vibe env str_as_int spots user_vibe w
           = (emit (EvWrite (MsgAgent2Analyzing (length spots))) w, Exc)
  | Val _ =>
      ∃ w' out,
        agent2_analyze_vibe env str_as_int spots user_vibe w = (w', Val out)
        ∧ (∀ i spot place_id, spots !! i = Some spot →
             (heap w !!! spot) !! "place_id" = Some place_id →
             EvPlace place_id ∈ log w')
        ∧ (∀ i spot, spots !! i = Some spot →
             spot_outcome env str_as_int user_vibe spot
               (run_spots env str_as_int user_vibe (take i spots) w0) = Scored →
             spot ∈ out)
  end.
Proof.
  intros Hn w0.
  apply agent2_by_setup. intros Ht.
  destruct (agent2_returns spots w Ht Hn) as (keyed & top & Hsnd & Hk & Hrun).
  eexists _, _. split; [exact Hrun|]. split.
  - intros i spot place_id Hi Hp.
    eapply elem_of_prefix; last first.
    { etrans; [apply (run_spots_take_prefix spots (S i))|exact (grows_st_write _ _)]. }
    rewrite (run_spots_take_S _ _ _ _ Hi).
    apply world_after_requests.
    rewrite run_spots_frame by (right; done). done.
  - intros i spot Hi Ho. rewrite (sort_desc_perm keyed), Hsnd.
    by eapply scored_spots_lookup.
Qed.

(** X4. The Maps url of a candidate is stored as soon as its details are
    fetched, also when the candidate is then skipped or fails: when the
    library builds the tool objects and the candidates carry a 'name', if the
    fetch at the candidate's turn succeeds with [url], the candidate
    holds [url] under 'url' after its turn and still has a 'url' when
    Agent 2 returns.
    When the library raises instead, so does Agent 2, right after its
    opening message. *)
Theorem agent2_url_stored spots w :
  named (heap w) spots →
  let w0 := emit (EvWrite (MsgAgent2Analyzing (length spots))) w in
  match types_oracle env "analyze_spot_vibe" with
  | Exc => agent2_analyze_vibe env str_as_int spots user_vibe w
           = (emit (EvWrite (MsgAgent2Analyzing (length spots))) w, Exc)
  | Val _ =>
      ∃ w' out,
        agent2_analyze_vibe env str_as_int spots user_vibe w = (w', Val out)
        ∧ ∀ i spot url, spots !! i = Some spot →
            details_fetched env spot
              (run_spots env str_as_int user_vibe (take i spots) w0) url →
            (heap (run_spots env str_as_int user_vibe (take (S i) spots) w0)
               !!! spot) !! "url" = Some url
            ∧ has_key (heap w') "url" spot
  end.
Proof.
  intros Hn w0.
  apply agent2_by_setup. intros Ht.
  destruct (agent2_returns spots w Ht Hn) as (keyed & top & Hsnd & Hk & Hrun).
  eexists _, _. split; [exact Hrun|].
  intros i spot url Hi Hf.
  destruct (fetch_details_fetched _ _ _ Hf) as [reviews E].
  assert ((heap (run_spots env str_as_int user_vibe (take (S i) spots) w0)
             !!! spot) !! "url" = Some url) as Hurl.
  { rewrite (run_spots_take_S _ _ _ _ Hi). by eapply world_after_fetched. }
  split; [done|]. cbn [heap emit]. fold w0.
  rewrite <- (take_drop (S i) spots) at 1. rewrite run_spots_app.
  apply run_spots_has_key. unfold has_key. by rewrite Hurl.
Qed.


(** *** A candidate without a name *)

Lemma ask_model_unnamed spot reviews w :
  ¬ has_key (heap w) "name" spot →
  (ask_model env str_as_int spot user_vibe reviews w).2 = Exc.
Proof.
  intros Hn. unfold ask_model, mbind, M_bind, lift.
  destruct (py_iter reviews) as [items|]; [|done].
  destruct (review_texts items) as [texts|]; [|done].
  destruct (py_join " " texts) as [snippets|]; [|done].
  unfold spot_item. destruct (_ !! "name") eqn:E; [|done].
  exfalso. apply Hn. by eexists.
Qed.

Lemma score_spot_unnamed spot w :
  ¬ has_key (heap w) "name" spot →
  (score_spot env str_as_int spot user_vibe w).2 = Exc
  ∧ ¬ has_key (heap (score_spot env str_as_int spot user_vibe w).1) "name" spot.
Proof.
  intros Hn. split.
  - destruct (fetch_details env spot w) as [w1 [[reviews url]|]] eqn:E.
    + pose proof (keeps_heap_fetch_details spot w) as Hf.
      rewrite E in Hf. cbn [fst] in Hf.
      unfold score_spot. rewrite (bind_val _ _ _ _ _ E).
      erewrite bind_val by reflexivity. cbn [fst snd].
      assert (¬ has_key (heap_setitem spot "url" url (heap w1)) "name" spot)
        as Hn1.
      { unfold has_key. rewrite heap_setitem_lookup.
        rewrite decide_False by (by intros [_ ?]). by rewrite Hf. }
      destruct (negb (truthy reviews)).
      * unfold mbind, M_bind, spot_item. cbn [heap].
        destruct (_ !! "name") eqn:En; [|done].
        exfalso. apply Hn1. by eexists.
      * by apply ask_model_unnamed.
    + by destruct (score_spot_not_fetched _ _ _ E) as [-> _].
  - destruct (score_spot_heap spot w) as [[-> _]|(?&?&url&_&->)]; [done|].
    unfold has_key. rewrite heap_setitem_lookup.
    by rewrite decide_False by (by intros [_ ?]).
Qed.

(** The handler of line 189 reads [spot['name']]: without that key the
    iteration raises out of the loop. *)
Lemma analyze_spot_unnamed spot analyzed_spots w :
  ¬ has_key (heap w) "name" spot →
  (analyze_spot env str_as_int spot user_vibe analyzed_spots w).2 = Exc.
Proof.
  intros Hn. destruct (score_spot_unnamed spot w Hn) as [Hexc Hn1].
  unfold analyze_spot, try_spot.
  destruct (score_spot env str_as_int spot user_vibe w) as [w1 r].
  cbn [fst snd] in *. subst r.
  unfold except_spot, mbind, M_bind, spot_item.
  destruct (_ !! "name") eqn:E; [|done].
  exfalso. apply Hn1. by eexists.
Qed.

Lemma world_after_named spot w l :
  has_key (heap (world_after env str_as_int user_vibe spot w)) "name" l
  ↔ has_key (heap w) "name" l.
Proof.
  unfold has_key.
  by rewrite (step_heap_frame spot _ _ l "name" (world_after_heap spot w))
    by (right; done).
Qed.

Lemma agent2_loop_unnamed spots analyzed_spots w :
  ¬ named (heap w) spots →
  (agent2_loop env str_as_int spots user_vibe analyzed_spots w).2 = Exc.
Proof.
  revert analyzed_spots w.
  induction spots as [|spot rest IH]; intros analyzed_spots w Hn.
  - exfalso. apply Hn. constructor.
  - cbn [agent2_loop].
    destruct (decide (has_key (heap w) "name" spot)) as [Hs|Hs].
    + pose proof (analyze_spot_world spot analyzed_spots w) as Hw.
      pose proof (analyze_spot_result spot analyzed_spots w Hs) as Hr.
      destruct (analyze_spot env str_as_int spot user_vibe analyzed_spots w)
        as [w1 r] eqn:E. cbn [fst snd] in *. subst w1 r.
      rewrite (bind_val _ _ _ _ _ E). apply IH.
      intros Hrest. apply Hn. constructor; [done|].
      unfold named in *. eapply Forall_impl; [exact Hrest|].
      intros l. apply world_after_named.
    + pose proof (analyze_spot_unnamed spot analyzed_spots w Hs) as Hr.
      destruct (analyze_spot env str_as_int spot user_vibe analyzed_spots w)
        as [w1 r] eqn:E. cbn [snd] in Hr. subst r.
      by rewrite (bind_exc _ _ _ _ E).
Qed.

(** X5. Agent 2 returns normally exactly when the library builds the tool
    objects of lines 117-133 and every candidate carries a 'name'. The
    set-up stands outside every [try]; and with a candidate that has no
    name, the [except] handler of the loop, which formats
    [spot['name']], raises itself: in both cases the exception leaves
    Agent 2. *)
Theorem agent2_returns_iff_named spots w :
  (∃ w' out,
     agent2_analyze_vibe env str_as_int spots user_vibe w = (w', Val out))
  ↔ types_oracle env "analyze_spot_vibe" = Val tt ∧ named (heap w) spots.
Proof.
  split.
  - intros (w' & out & Hrun).
    destruct (types_oracle env "analyze_spot_vibe") as [[]|] eqn:Ht;
      [|by rewrite (agent2_without_tools _ _ Ht) in Hrun].
    split; [done|].
    destruct (decide (named (heap w) spots)) as [|Hn]; [done|exfalso].
    pose proof (agent2_loop_unnamed spots []
      (emit (EvWrite (MsgAgent2Analyzing (length spots))) w) Hn) as Hexc.
    revert Hrun. unfold agent2_analyze_vibe.
    erewrite bind_val by reflexivity.
    erewrite bind_val by (unfold tool_setup; by rewrite Ht).
    destruct (agent2_loop env str_as_int spots user_vibe [] _)
      as [w1 r] eqn:E. cbn [snd] in Hexc. subst r.
    by rewrite (bind_exc _ _ _ _ E).
  - intros [Ht Hn].
    destruct (agent2_returns spots w Ht Hn) as (keyed & top & _ & _ & Hrun).
    by eexists _, _.
Qed.


(** *** Validation and the stored analysis *)

Lemma validate_each_str (l : list string) :
  validate_each validate_str (PStr <$> l) = Val l.
Proof.
  induction l as [|s l IH]; [done|].
  cbn [fmap list_fmap validate_each validate_str].
  unfold mbind, res_bind. cbn [fmap list_fmap] in IH. by rewrite IH.
Qed.

(** X6. Dump-then-validate round trip: the dict [model_dump] makes of any
    [SpotVibeAnalysis] record validates back to that record. The schema
    declares no bound, so this holds for every integer score (11, 0 and
    negative ones included) and for any number of adjectives. *)
Theorem SpotVibeAnalysis_validate_dump va :
  ∃ d, SpotVibeAnalysis_model_dump va = PDict d
       ∧ SpotVibeAnalysis_model_validate str_as_int d = Val va.
Proof.
  destruct va as [adjectives features score justification].
  eexists. split; [reflexivity|].
  unfold SpotVibeAnalysis_model_validate, required.
  cbn [vibe_adjectives unique_features vibe_match_score
       vibe_match_justification].
  match goal with |- context [?d !! "vibe_adjectives"] =>
    change (d !! "vibe_adjectives") with (Some (PList (PStr <$> adjectives)));
    change (d !! "unique_features") with (Some (PList (PStr <$> features)));
    change (d !! "vibe_match_score") with (Some (PInt score));
    change (d !! "vibe_match_justification") with (Some (PStr justification))
  end.
  cbn [validate_list validate_int validate_str].
  rewrite !validate_each_str. reflexivity.
Qed.

Lemma analysed_items h spot :
  analysed h spot →
  ∃ va, (h !!! spot) !! "vibe_analysis" = Some (SpotVibeAnalysis_model_dump va)
        ∧ vibe_score h spot = Some (vibe_match_score va).
Proof.
  intros [va Hva]. exists va. split; [done|].
  unfold vibe_score, sort_key. by rewrite Hva.
Qed.

(** X7. When the library builds the tool objects and the candidates
    carry a 'name', Agent 2 returns, and every candidate it returns is
    fully populated: it has a
    'url', and its 'vibe_analysis' is the dump of a validated
    [SpotVibeAnalysis], whose integer score is the one Agent 2 sorted
    by. No partial analysis is ever returned.
    When the library raises instead, so does Agent 2, right after its
    opening message. *)
Theorem agent2_output_populated spots w :
  named (heap w) spots →
  match types_oracle env "analyze_spot_vibe" with
  | Exc => agent2_analyze_vibe env str_as_int spots user_vibe w
           = (emit (EvWrite (MsgAgent2Analyzing (length spots))) w, Exc)
  | Val _ =>
      ∃ w' out,
        agent2_analyze_vibe env str_as_int spots user_vibe w = (w', Val out)
        ∧ ∀ spot, spot ∈ out →
            has_key (heap w') "url" spot
            ∧ ∃ va, (heap w' !!! spot) !! "vibe_analysis"
                      = Some (SpotVibeAnalysis_model_dump va)
                    ∧ vibe_score (heap w') spot = Some (vibe_match_score va)
  end.
Proof.
  intros Hn.
  apply agent2_by_setup. intros Ht.
  destruct (agent2_returns spots w Ht Hn) as (keyed & top & Hsnd & Hk & Hrun).
  eexists _, _. split; [exact Hrun|].
  intros spot Hin. cbn [heap emit].
  assert (spot ∈ scored_spots env str_as_int user_vibe spots
            (emit (EvWrite (MsgAgent2Analyzing (length spots))) w)) as Hsc.
  { rewrite <- Hsnd. by rewrite <- (sort_desc_perm keyed). }
  destruct (scored_spots_analysed _ _ _ Hsc) as [Ha Hu].
  split; [done|]. by apply analysed_items.
Qed.


(** *** The summaries Agent 3 builds *)

Lemma spot_item2_analysed spot k w va v :
  (heap w !!! spot) !! "vibe_analysis" = Some (SpotVibeAnalysis_model_dump va) →
  py_getitem (SpotVibeAnalysis_model_dump va) k = Val v →
  spot_item2 spot "vibe_analysis" k w = (w, Val v).
Proof.
  intros Hva Hk. unfold spot_item2.
  erewrite bind_val; last first.
  { unfold spot_item. by rewrite Hva. }
  unfold lift. by rewrite Hk.
Qed.

Lemma spot_summary_populated spot w :
  populated (heap w) spot → ∃ d, spot_summary spot w = (w, Val d).
Proof.
  intros (Hn & Hu & Hr & Hc & [va Hva]).
  destruct (spot_item_has_key _ _ _ Hn) as [name En].
  destruct (spot_item_has_key _ _ _ Hu) as [url Eu].
  destruct (spot_item_has_key _ _ _ Hr) as [rating Er].
  destruct (spot_item_has_key _ _ _ Hc) as [count Ec].
  eexists. unfold spot_summary.
  rewrite (bind_val _ _ _ _ _ En), (bind_val _ _ _ _ _ Eu).
  rewrite (bind_val _ _ _ _ _ Er), (bind_val _ _ _ _ _ Ec).
  erewrite bind_val by (eapply spot_item2_analysed; [exact Hva|reflexivity]).
  erewrite bind_val by (eapply spot_item2_analysed; [exact Hva|reflexivity]).
  erewrite bind_val by (eapply spot_item2_analysed; [exact Hva|reflexivity]).
  reflexivity.
Qed.

Lemma summary_loop_populated spots spot_data_summary w :
  Forall (populated (heap w)) spots →
  ∃ ds, summary_loop spots spot_data_summary w
        = (w, Val (spot_data_summary ++ ds))
        ∧ length ds = length spots.
Proof.
  intros Hp. revert spot_data_summary.
  induction Hp as [|spot spots Hspot _ IH]; intros spot_data_summary.
  - exists []. by rewrite app_nil_r.
  - destruct (spot_summary_populated _ _ Hspot) as [d Hd].
    destruct (IH (spot_data_summary ++ [d])) as (ds & Hds & Hlen).
    exists (d :: ds). cbn [summary_loop length].
    rewrite (bind_val _ _ _ _ _ Hd), Hds, <- app_assoc. by rewrite Hlen.
Qed.

(** X8. Agent 2 hands Agent 3 what it needs: when the library builds the
    tool objects and the input candidates carry the keys Agent 1 gives
    them, Agent 2 returns and every candidate it returns
    has all the keys the per-spot summary of Agent 3 reads, so building
    the summaries of any prefix of the output (the script takes the first
    three) raises no [KeyError] and yields one summary per candidate.
    When the library raises instead, so does Agent 2, right after its
    opening message. *)
Theorem agent2_output_summarizable spots w :
  discovered (heap w) spots →
  match types_oracle env "analyze_spot_vibe" with
  | Exc => agent2_analyze_vibe env str_as_int spots user_vibe w
           = (emit (EvWrite (MsgAgent2Analyzing (length spots))) w, Exc)
  | Val _ =>
      ∃ w' out,
        agent2_analyze_vibe env str_as_int spots user_vibe w = (w', Val out)
        ∧ ∀ n, ∃ ds, summary_loop (take n out) [] w' = (w', Val ds)
                     ∧ length ds = length (take n out)
  end.
Proof.
  intros Hd.
  apply agent2_by_setup. intros Ht.
  assert (named (heap w) spots) as Hn.
  { unfold named. eapply Forall_impl; [exact Hd|]. by intros l [? _]. }
  destruct (agent2_returns spots w Ht Hn) as (keyed & top & Hsnd & Hk & Hrun).
  eexists _, _. split; [exact Hrun|]. intros n.
  apply (summary_loop_populated _ []).
  apply Forall_forall. intros spot Hin. apply subseteq_take in Hin.
  cbn [heap emit].
  assert (spot ∈ scored_spots env str_as_int user_vibe spots
            (emit (EvWrite (MsgAgent2Analyzing (length spots))) w)) as Hsc.
  { rewrite <- Hsnd. by rewrite <- (sort_desc_perm keyed). }
  destruct (scored_spots_analysed _ _ _ Hsc) as [Ha Hu].
  pose proof (scored_spots_elem_of _ _ _ Hsc) as Hspot.
  unfold discovered in Hd. rewrite Forall_forall in Hd.
  destruct (Hd _ Hspot) as (H1 & _ & H3 & H4).
  repeat split; try done; by apply run_spots_has_key.
Qed.

(** *** Candidates without reviews *)

Lemma score_spot_no_reviews spot w w1 reviews url :
  fetch_details env spot w = (w1, Val (reviews, url)) →
  truthy reviews = false →
  spot_outcome env str_as_int user_vibe spot w ≠ Scored.
Proof.
  intros E Ht. unfold spot_outcome, score_spot.
  rewrite (bind_val _ _ _ _ _ E). erewrite bind_val by reflexivity.
  cbn [fst snd]. rewrite Ht. cbn [negb].
  unfold mbind, M_bind, spot_item, st_write, mret, M_ret.
  by destruct (_ !! "name").
Qed.

Lemma scored_spots_inv spots w spot :
  spot ∈ scored_spots env str_as_int user_vibe spots w →
  ∃ i, spots !! i = Some spot
       ∧ spot_outcome env str_as_int user_vibe spot
           (run_spots env str_as_int user_vibe (take i spots) w) = Scored.
Proof.
  revert w. induction spots as [|s rest IH]; intros w.
  - by intros ?%elem_of_nil.
  - cbn [scored_spots]. rewrite elem_of_app. intros [Hl|Hl].
    + case_decide as Hs; [|by apply elem_of_nil in Hl].
      apply list_elem_of_singleton in Hl as ->. by exists 0%nat.
    + destruct (IH _ Hl) as (i & Hi & Ho). by exists (S i).
Qed.

(** X19. A candidate for which the place service returns no review is
    never scored: when the library builds the tool objects, the
    candidates carry a 'name' and are distinct objects, and the
    fetch at a candidate's turn yields an empty (falsy) review list, the
    candidate is not in the output of Agent 2, and the url that was
    fetched stays stored on it.
    When the library raises instead, so does Agent 2, right after its
    opening message. *)
Theorem agent2_no_reviews_skipped spots w i spot w1 reviews url :
  named (heap w) spots →
  NoDup spots →
  spots !! i = Some spot →
  fetch_details env spot
    (run_spots env str_as_int user_vibe (take i spots)
       (emit (EvWrite (MsgAgent2Analyzing (length spots))) w))
    = (w1, Val (reviews, url)) →
  truthy reviews = false →
  match types_oracle env "analyze_spot_vibe" with
  | Exc => agent2_analyze_vibe env str_as_int spots user_vibe w
           = (emit (EvWrite (MsgAgent2Analyzing (length spots))) w, Exc)
  | Val _ =>
      ∃ w' out,
        agent2_analyze_vibe env str_as_int spots user_vibe w = (w', Val out)
        ∧ (spot ∉ out)
        ∧ (heap w' !!! spot) !! "url" = Some url
  end.
Proof.
  intros Hn Hnd Hi Hf Ht.
  apply agent2_by_setup. intros Htools.
  destruct (agent2_returns spots w Htools Hn) as (keyed & top & Hsnd & Hk & Hrun).
  eexists _, _. split; [exact Hrun|]. split.
  - rewrite (sort_desc_perm keyed), Hsnd.
    intros (j & Hj & Ho)%scored_spots_inv.
    assert (j = i) as -> by (by eapply NoDup_lookup).
    by eapply score_spot_no_reviews.
  - cbn [heap emit].
    rewrite <- (take_drop (S i) spots) at 1. rewrite run_spots_app.
    rewrite run_spots_frame.
    + rewrite (run_spots_take_S _ _ _ _ Hi). by eapply world_after_fetched.
    + left. intros Hin.
      apply list_elem_of_lookup in Hin as [j Hj].
      rewrite lookup_drop in Hj.
      assert ((S i + j)%nat = i) by (by eapply NoDup_lookup). lia.
Qed.

(** *** What Agent 2 requests *)

Lemma substring_length_le n s :
  (String.length (String.substring 0 n s) ≤ n)%nat.
Proof.
  revert s. induction n as [|n IH]; intros s.
  - by destruct s.
  - destruct s as [|c s]; cbn; [lia|]. specialize (IH s). lia.
Qed.

Definition emits (P : event → Prop) {A} (m : M A) : Prop :=
  ∀ w, ∃ evs, log (m w).1 = log w ++ evs ∧ Forall P evs.

Lemma emits_silent (P : event → Prop) {A} (m : M A) :
  (∀ w, log (m w).1 = log w) → emits P m.
Proof. intros H w. exists []. by rewrite app_nil_r. Qed.

Lemma emits_bind (P : event → Prop) {A B} (m : M A) (f : A → M B) :
  emits P m → (∀ a, emits P (f a)) → emits P (m ≫= f).
Proof.
  intros Hm Hf w. unfold mbind, M_bind.
  destruct (Hm w) as (evs & Hevs & HP).
  destruct (m w) as [w1 [a|]]; cbn [fst] in *; [|by exists evs].
  destruct (Hf a w1) as (evs' & Hevs' & HP').
  exists (evs ++ evs'). rewrite Hevs', Hevs, app_assoc. split; [done|].
  by apply Forall_app.
Qed.

Lemma emits_one (P : event → Prop) {A} (m : M A) e :
  P e → (∀ w, log (m w).1 = log w ++ [e]) → emits P m.
Proof. intros He H w. exists [e]. split; [done|]. by constructor. Qed.

Ltac emits :=
  repeat first
    [ apply emits_bind; [|intros]
    | match goal with |- emits _ (if ?b then _ else _) => destruct b end
    | by apply emits_silent
    | solve [eapply emits_one; last first;
             [intros ?; reflexivity
             |first [exact I
                    |cbn; repeat split; apply substring_length_le]]] ].

Lemma emits_score_spot spot :
  emits (agent2_event user_vibe) (score_spot env str_as_int spot user_vibe).
Proof.
  unfold score_spot, fetch_details, ask_model, parse_analysis. emits.
Qed.

Lemma emits_analyze_spot spot analyzed_spots :
  emits (agent2_event user_vibe)
    (analyze_spot env str_as_int spot user_vibe analyzed_spots).
Proof.
  intros w. unfold analyze_spot, try_spot.
  destruct (emits_score_spot spot w) as (evs & Hevs & HP).
  assert (∀ w1, ∃ evs', log (except_spot spot w1).1 = log w1 ++ evs'
                        ∧ Forall (agent2_event user_vibe) evs') as Hex.
  { intros w1. assert (emits (agent2_event user_vibe) (except_spot spot)) as H.
    { unfold except_spot. emits. }
    apply H. }
  destruct (score_spot env str_as_int spot user_vibe w) as [w1 [[va|]|]];
    cbn [fst] in *.
  - assert (∃ evs', log (store_analysis spot va analyzed_spots w1).1
                    = log w1 ++ evs'
                    ∧ Forall (agent2_event user_vibe) evs') as (e1 & He1 & HP1).
    { unfold store_analysis, spot_setitem, spot_item. cbv beta iota.
      destruct (_ !! "name"); cbn.
      - eexists [_]. split; [done|]. by repeat constructor.
      - exists []. by rewrite app_nil_r. }
    destruct (store_analysis spot va analyzed_spots w1) as [w2 [l [[]|]]];
      cbn [fst] in *.
    + exists (evs ++ e1). rewrite He1, Hevs, app_assoc. split; [done|].
      by apply Forall_app.
    + destruct (Hex w2) as (e2 & He2 & HP2).
      exists (evs ++ e1 ++ e2).
      destruct (except_spot spot w2) as [w3 [[]|]]; cbn [fst] in *;
        rewrite He2, He1, Hevs, !app_assoc;
        (split; [done|]); by rewrite !Forall_app.
  - by exists evs.
  - destruct (Hex w1) as (e2 & He2 & HP2). exists (evs ++ e2).
    destruct (except_spot spot w1) as [w3 [[]|]]; cbn [fst] in *;
      rewrite He2, Hevs, !app_assoc; (split; [done|]); by rewrite !Forall_app.
Qed.

Lemma emits_agent2_loop spots analyzed_spots :
  emits (agent2_event user_vibe)
    (agent2_loop env str_as_int spots user_vibe analyzed_spots).
Proof.
  revert analyzed_spots. induction spots as [|spot rest IH]; intros acc.
  - by apply emits_silent.
  - cbn [agent2_loop]. apply emits_bind; [apply emits_analyze_spot|].
    intros acc'. apply IH.
Qed.

(** X20. What Agent 2 does to the outside: everything it appends to the
    trace is a progress message, a warning, a place-details request, or a
    model request that carries the user's vibe, the review text cut to at
    most 3000 characters, and the forced function [analyze_spot_vibe]. It
    never geocodes, never searches, never asks for an itinerary. This
    holds for every input and every answer of the services, also when
    Agent 2 raises. *)
Theorem agent2_requests spots w :
  ∃ evs,
    log (agent2_analyze_vibe env str_as_int spots user_vibe w).1
    = log w ++ evs
    ∧ Forall (agent2_event user_vibe) evs.
Proof.
  assert (emits (agent2_event user_vibe)
            (agent2_analyze_vibe env str_as_int spots user_vibe)) as H;
    [|apply H].
  unfold agent2_analyze_vibe.
  apply emits_bind; [emits|]. intros _.
  apply emits_bind; [by apply emits_silent|]. intros _.
  apply emits_bind; [apply emits_agent2_loop|]. intros analyzed.
  apply emits_bind; [by apply emits_silent|]. intros sorted.
  apply emits_bind.
  - destruct sorted; by apply emits_silent.
  - intros top. emits.
Qed.

End VibeScorer.

(** ** ItineraryComposer *)

Section Composer.

Variable env : Env.

Lemma bind_val_inv {A B} (m : M A) (f : A → M B) w w' b :
  (m ≫= f) w = (w', Val b) →
  ∃ w1 a, m w = (w1, Val a) ∧ f a w1 = (w', Val b).
Proof.
  unfold mbind, M_bind. destruct (m w) as [w1 [a|]]; [|done].
  intros H. by exists w1, a.
Qed.


(** *** Computations without any effect on the world *)

Definition keeps_world {A} (m : M A) : Prop := ∀ w, (m w).1 = w.

Lemma keeps_world_bind {A B} (m : M A) (f : A → M B) :
  keeps_world m → (∀ a, keeps_world (f a)) → keeps_world (m ≫= f).
Proof.
  intros Hm Hf w. unfold mbind, M_bind. specialize (Hm w).
  destruct (m w) as [w1 [a|]]; cbn [fst] in *; subst; [apply Hf|done].
Qed.

Lemma keeps_world_ret {A} (a : A) : keeps_world (mret a : M A).
Proof. by intros w. Qed.

Lemma keeps_world_lift {A} (r : res A) : keeps_world (lift r).
Proof. by intros w. Qed.

Lemma keeps_world_spot_item spot k : keeps_world (spot_item spot k).
Proof. by intros w. Qed.

Lemma keeps_world_spot_summary spot : keeps_world (spot_summary spot).
Proof.
  unfold spot_summary, spot_item2.
  repeat first
    [ apply keeps_world_bind; [|intros]
    | apply keeps_world_spot_item | apply keeps_world_lift
    | apply keeps_world_ret ].
Qed.

Lemma keeps_world_summary_loop spots spot_data_summary :
  keeps_world (summary_loop spots spot_data_summary).
Proof.
  revert spot_data_summary.
  induction spots as [|spot spots IH]; intros spot_data_summary.
  - apply keeps_world_ret.
  - cbn [summary_loop]. apply keeps_world_bind; [|intros; apply IH].
    apply keeps_world_spot_summary.
Qed.

Lemma validate_each_length {A} (f : pyval → res A) l r :
  validate_each f l = Val r → length r = length l.
Proof.
  revert r. induction l as [|v l IH]; intros r; cbn [validate_each].
  - by intros [= <-].
  - unfold mbind, res_bind. destruct (f v) as [a|]; [|done].
    destruct (validate_each f l) as [r'|]; [|done].
    intros [= <-]. cbn. f_equal. by apply IH.
Qed.

(** The validated itinerary has as many spots as the model's list. *)
Lemma FinalItinerary_validate_length args it :
  FinalItinerary_model_validate args = Val it →
  ∃ l, args !! "itinerary_spots" = Some (PList l)
       ∧ length (itinerary_spots it) = length l.
Proof.
  unfold FinalItinerary_model_validate, required, mbind, res_bind.
  destruct (args !! "itinerary_title") as [t|]; [|done].
  destruct (validate_str t) as [title|]; [|done].
  destruct (args !! "itinerary_spots") as [v|]; [|done].
  destruct v as [| | | | |l|]; try done. cbn [validate_list].
  destruct (validate_each _ l) as [spots|] eqn:E; [|done].
  intros [= <-]. exists l. split; [done|]. cbn.
  by eapply validate_each_length.
Qed.

(** The [try/except] of lines 254-272 on a given prompt: one request;
    then either the validated itinerary, or one error message and None. *)
Lemma agent3_try p w :
  let w1 := emit (EvGenerate p "generate_itinerary") w in
  (∃ fc rest it,
     generate_content_oracle env (log w) p "generate_itinerary"
       = Val (fc :: rest)
     ∧ fc_name fc = "generate_itinerary"
     ∧ FinalItinerary_model_validate (fc_args fc) = Val it
     ∧ try_catch (agent3_call env p) (st_error MsgAgent3Exception;; mret None) w
       = (w1, Val (Some it)))
  ∨ (∃ m,
     try_catch (agent3_call env p) (st_error MsgAgent3Exception;; mret None) w
     = (emit (EvError m) w1, Val None)).
Proof.
  intros w1. unfold try_catch.
  destruct (generate_content_oracle env (log w) p "generate_itinerary")
    as [[|fc rest]|] eqn:Ho.
  - right. exists MsgAgent3Exception. unfold agent3_call.
    erewrite bind_val by (unfold generate_content; by rewrite Ho).
    reflexivity.
  - unfold agent3_call.
    erewrite bind_val by (unfold generate_content; by rewrite Ho).
    erewrite bind_lift_val by reflexivity. fold w1.
    destruct (String.eqb (fc_name fc) "generate_itinerary") eqn:En.
    + destruct (FinalItinerary_model_validate (fc_args fc)) as [it|] eqn:Ev.
      * left. exists fc, rest, it. apply String.eqb_eq in En.
        repeat split; try done.
      * right. exists MsgAgent3Exception. reflexivity.
    + right. by exists MsgAgent3NoStructure.
  - right. exists MsgAgent3Exception. unfold agent3_call.
    erewrite bind_exc by (unfold generate_content; by rewrite Ho).
    reflexivity.
Qed.

(** X9. Agent 3 is contained and asks once. With an empty input it
    returns None after its opening message, without any request. With
    populated candidates it builds one summary per candidate; then, if
    the library cannot build the tool objects of lines 221-236, it raises
    there, before any request; otherwise it sends exactly one request
    and returns either the itinerary, or None after exactly one error
    message. It never changes the store. *)
Theorem agent3_contained top_spots city vibe w :
  Forall (populated (heap w)) top_spots →
  let w0 := emit (EvWrite (MsgAgent3Generating (length top_spots))) w in
  match top_spots with
  | [] => agent3_generate_narrative env top_spots city vibe w = (w0, Val None)
  | _ :: _ =>
      match types_oracle env "generate_itinerary" with
      | Exc => agent3_generate_narrative env top_spots city vibe w = (w0, Exc)
      | Val _ =>
          ∃ ds, length ds = length top_spots ∧
            let w1 := emit (EvGenerate (ItineraryPrompt city vibe ds)
                              "generate_itinerary") w0 in
            (∃ it, agent3_generate_narrative env top_spots city vibe w
                   = (w1, Val (Some it)))
            ∨ (∃ m, agent3_generate_narrative env top_spots city vibe w
                    = (emit (EvError m) w1, Val None))
      end
  end.
Proof.
  intros Hp w0. destruct top_spots as [|spot rest]; [done|].
  destruct (summary_loop_populated (spot :: rest) [] w0 Hp) as (ds & Hds & Hlen).
  unfold agent3_generate_narrative.
  erewrite bind_val by reflexivity. fold w0.
  rewrite (bind_val _ _ _ _ _ Hds). cbn [app].
  destruct (types_oracle env "generate_itinerary") as [[]|] eqn:Ht.
  - exists ds. split; [done|]. cbv zeta.
    erewrite bind_val by (unfold tool_setup; by rewrite Ht).
    destruct (agent3_try (ItineraryPrompt city vibe ds) w0)
      as [(fc & rst & it & _ & _ & _ & ->)|[m ->]]; eauto.
  - by erewrite bind_exc by (unfold tool_setup; by rewrite Ht).
Qed.

(** X10. Agent 3 returns an itinerary exactly when its list is not
    empty, the summaries were built, the library built the tool objects
    of lines 221-236, and the model answered the single request with a
    call of [generate_itinerary] whose arguments validate; the itinerary
    is then the validated arguments, and it has as many spots as the list
    the model sent, whatever the number of candidates. In particular no
    itinerary is returned when the library raises. *)
Theorem agent3_itinerary_from_model top_spots city vibe w w' it :
  let w0 := emit (EvWrite (MsgAgent3Generating (length top_spots))) w in
  agent3_generate_narrative env top_spots city vibe w = (w', Val (Some it))
  ↔ top_spots ≠ []
    ∧ ∃ ds fc rest l,
        summary_loop top_spots [] w0 = (w0, Val ds)
        ∧ types_oracle env "generate_itinerary" = Val tt
        ∧ generate_content_oracle env (log w0) (ItineraryPrompt city vibe ds)
            "generate_itinerary" = Val (fc :: rest)
        ∧ fc_name fc = "generate_itinerary"
        ∧ FinalItinerary_model_validate (fc_args fc) = Val it
        ∧ fc_args fc !! "itinerary_spots" = Some (PList l)
        ∧ length (itinerary_spots it) = length l
        ∧ w' = emit (EvGenerate (ItineraryPrompt city vibe ds)
                       "generate_itinerary") w0.
Proof.
  intros w0. unfold agent3_generate_narrative.
  erewrite bind_val by reflexivity. fold w0. split.
  - destruct top_spots as [|spot rest]; [done|].
    intros (w1 & ds & Hds & Htry)%bind_val_inv.
    assert (w1 = w0) as ->.
    { pose proof (keeps_world_summary_loop (spot :: rest) [] w0) as Hw.
      by rewrite Hds in Hw. }
    apply bind_val_inv in Htry as (w2 & [] & Hsetup & Htry).
    unfold tool_setup in Hsetup. injection Hsetup as <- Ht.
    destruct (agent3_try (ItineraryPrompt city vibe ds) w0)
      as [(fc & rst & it' & Ho & Hname & Hval & Hrun)|[m Hrun]];
      rewrite Hrun in Htry; [|done].
    injection Htry as <- <-.
    destruct (FinalItinerary_validate_length _ _ Hval) as (l & Hl & Hlen).
    split; [done|]. by exists ds, fc, rst, l.
  - intros (Hne & ds & fc & rst & l & Hds & Ht & Ho & Hname & Hval & _ & _ & ->).
    destruct top_spots as [|spot rest]; [done|].
    rewrite (bind_val _ _ _ _ _ Hds).
    erewrite bind_val by (unfold tool_setup; by rewrite Ht).
    unfold try_catch, agent3_call.
    erewrite bind_val by (unfold generate_content; by rewrite Ho).
    erewrite bind_lift_val by reflexivity.
    rewrite Hname, String.eqb_refl.
    by erewrite bind_lift_val by exact Hval.
Qed.


Lemma spot_summary_no_url spot w :
  ¬ has_key (heap w) "url" spot → (spot_summary spot w).2 = Exc.
Proof.
  intros Hu. unfold spot_summary. unfold mbind at 1, M_bind at 1.
  unfold spot_item at 1. destruct (_ !! "name"); [|done].
  unfold mbind at 1, M_bind at 1. unfold spot_item at 1.
  destruct (_ !! "url") eqn:E; [|done].
  exfalso. apply Hu. by eexists.
Qed.

Lemma summary_loop_no_url spots spot_data_summary w :
  ¬ Forall (has_key (heap w) "url") spots →
  summary_loop spots spot_data_summary w = (w, Exc).
Proof.
  revert spot_data_summary.
  induction spots as [|spot spots IH]; intros spot_data_summary Hn.
  - exfalso. apply Hn. constructor.
  - cbn [summary_loop].
    pose proof (keeps_world_spot_summary spot w) as Hw.
    destruct (spot_summary spot w) as [w1 [d|]] eqn:E; cbn [fst] in Hw;
      subst w1.
    + rewrite (bind_val _ _ _ _ _ E). apply IH. intros Hrest. apply Hn.
      constructor; [|done].
      destruct (decide (has_key (heap w) "url" spot)) as [|Hu]; [done|].
      pose proof (spot_summary_no_url spot w Hu) as Hexc.
      by rewrite E in Hexc.
    + by rewrite (bind_exc _ _ _ _ E).
Qed.

(** X11. The summaries are built outside the [try] block of Agent 3: a
    candidate without a 'url' (one that Agent 2 never fetched) makes
    Agent 3 raise a [KeyError] after its opening message, before any
    request is sent to the model. *)
Theorem agent3_missing_url_raises top_spots city vibe w :
  ¬ Forall (has_key (heap w) "url") top_spots →
  agent3_generate_narrative env top_spots city vibe w
  = (emit (EvWrite (MsgAgent3Generating (length top_spots))) w, Exc).
Proof.
  intros Hn. unfold agent3_generate_narrative.
  erewrite bind_val by reflexivity.
  destruct top_spots as [|spot rest].
  - exfalso. apply Hn. constructor.
  - erewrite bind_exc; [done|]. by apply summary_loop_no_url.
Qed.

End Composer.

(** ** Discovery: errors and invariants *)

Section DiscoveryEdges.

Variable env : Env.

(** X13. An unresolvable city: when the geocoder answers with an empty
    (falsy) result, Agent 1 reports "city not found" and returns the
    empty list; the nearby search is never issued. *)
Theorem agent1_city_not_found city query max_reviews min_rating radius_m w
    geocode_result :
  let w0 := emit (EvWrite (MsgAgent1Searching query city)) w in
  gmaps_geocode_oracle env (log w0) city = Val geocode_result →
  truthy geocode_result = false →
  agent1_find_unseen_spots env city query max_reviews min_rating radius_m w
  = (emit (EvError (MsgCityNotFound city)) (emit (EvGeocode city) w0), Val []).
Proof.
  intros w0 Ho Ht. unfold agent1_find_unseen_spots.
  erewrite bind_val by reflexivity. fold w0.
  erewrite bind_val; last first.
  { unfold try_catch, agent1_search.
    erewrite bind_val by (unfold gmaps_geocode; by rewrite Ho).
    rewrite Ht. reflexivity. }
  reflexivity.
Qed.

(** X14. A failing search is contained: when the geocoder raises, or
    anything else in the search phase of Agent 1 raises (the nearby
    search, a geocoder answer without coordinates), Agent 1 reports the
    Maps error and returns the empty list instead of raising. *)
Theorem agent1_search_error_contained city query max_reviews min_rating
    radius_m w :
  let w0 := emit (EvWrite (MsgAgent1Searching query city)) w in
  (gmaps_geocode_oracle env (log w0) city = Exc →
   agent1_find_unseen_spots env city query max_reviews min_rating radius_m w
   = (emit (EvError MsgMapsError) (emit (EvGeocode city) w0), Val []))
  ∧ (∀ w1, agent1_search env city query radius_m w0 = (w1, Exc) →
     agent1_find_unseen_spots env city query max_reviews min_rating radius_m w
     = (emit (EvError MsgMapsError) w1, Val [])).
Proof.
  intros w0.
  assert (∀ w1, agent1_search env city query radius_m w0 = (w1, Exc) →
     agent1_find_unseen_spots env city query max_reviews min_rating radius_m w
     = (emit (EvError MsgMapsError) w1, Val [])) as Hgen.
  { intros w1 Hs. unfold agent1_find_unseen_spots.
    erewrite bind_val by reflexivity.
    erewrite bind_val; last first.
    { unfold try_catch. fold w0. rewrite Hs. reflexivity. }
    reflexivity. }
  split; [|done]. intros Ho. apply Hgen.
  unfold agent1_search.
  by erewrite bind_exc by (unfold gmaps_geocode; by rewrite Ho).
Qed.

(** What the loop of Agent 1 appends: Candidates with the four keys,
    whose rating and review count are numbers within the bounds. *)
Lemma inverse_filter_true rating review_count max_reviews min_rating :
  inverse_filter rating review_count max_reviews min_rating = Val true →
  ∃ r c, as_num rating = Some r ∧ as_num review_count = Some c
         ∧ (min_rating <= r)%Q ∧ (0 < c)%Q ∧ (c <= inject_Z max_reviews)%Q.
Proof.
  unfold inverse_filter, py_ge, py_le, py_gt, mbind, res_bind, mret, res_ret.
  destruct (as_num rating) as [r|]; [|done].
  destruct (Qle_bool min_rating r) eqn:E1; [|done].
  destruct (as_num review_count) as [c|]; [|done].
  destruct (Qle_bool c (inject_Z max_reviews)) eqn:E2; [|done].
  destruct (Qle_bool c 0) eqn:E3; [done|]. intros _.
  exists r, c. repeat split; try done.
  - by apply Qle_bool_iff.
  - apply Qnot_le_lt. intros Hle. apply Qle_bool_iff in Hle. congruence.
  - by apply Qle_bool_iff.
Qed.

Lemma agent1_loop_invariant places max_reviews min_rating unseen_spots out :
  agent1_loop places max_reviews min_rating unseen_spots = Val out →
  ∃ new, out = unseen_spots ++ new
         ∧ Forall (candidate_ok min_rating max_reviews) new
         ∧ (length new ≤ length places)%nat.
Proof.
  revert unseen_spots.
  induction places as [|place rest IH]; intros unseen_spots; cbn [agent1_loop].
  - intros [= <-]. exists []. rewrite app_nil_r. by repeat constructor.
  - unfold mbind, res_bind.
    destruct (py_get place "name" PNone) as [name|]; [|done].
    destruct (py_get place "place_id" PNone) as [place_id|]; [|done].
    destruct (py_get place "rating" (PInt 0)) as [rating|]; [|done].
    destruct (py_get place "user_ratings_total" (PInt 0)) as [count|]; [|done].
    destruct (inverse_filter rating count max_reviews min_rating)
      as [[|]|] eqn:Ef; [| |done].
    + intros (new & -> & Hnew & Hlen)%IH.
      exists (new_spot name place_id rating count :: new).
      rewrite <- app_assoc. split; [done|]. split; [|cbn; lia].
      constructor; [|done].
      destruct (inverse_filter_true _ _ _ _ Ef) as (r & c & ?).
      exists name, place_id, rating, count, r, c.
      by repeat (split; [reflexivity|]).
    + intros (new & -> & Hnew & Hlen)%IH. exists new.
      split; [done|]. split; [done|]. cbn. lia.
Qed.

Lemma agent1_candidate_ok city query max_reviews min_rating radius_m
    w w' unseen_spots :
  agent1_find_unseen_spots env city query max_reviews min_rating radius_m w
    = (w', Val unseen_spots) →
  Forall (candidate_ok min_rating max_reviews) unseen_spots.
Proof.
  unfold agent1_find_unseen_spots.
  erewrite bind_val by reflexivity.
  intros (w1 & found & _ & Hrest)%bind_val_inv.
  destruct found as [raw_results|]; [|by injection Hrest as _ <-].
  apply bind_val_inv in Hrest as (w2 & results & _ & Hrest).
  apply bind_val_inv in Hrest as (w3 & places & _ & Hrest).
  apply bind_val_inv in Hrest as (w4 & out & Hloop & Hrest).
  injection Hrest as _ <-.
  unfold lift in Hloop. injection Hloop as _ Hloop.
  by destruct (agent1_loop_invariant _ _ _ _ _ Hloop) as (new & -> & ? & _).
Qed.

Lemma keeps_heap_agent1 city query max_reviews min_rating radius_m :
  keeps_heap
    (agent1_find_unseen_spots env city query max_reviews min_rating radius_m).
Proof.
  unfold agent1_find_unseen_spots.
  apply keeps_heap_bind; [apply keeps_heap_st_write|]. intros _.
  apply keeps_heap_bind.
  - apply keeps_heap_try_catch; [|keeps_heap].
    unfold agent1_search. apply keeps_heap_bind; [by intros w|].
    intros geocode_result. destruct (negb (truthy geocode_result)).
    + keeps_heap.
    + repeat (apply keeps_heap_bind; [apply keeps_heap_lift|intros]).
      apply keeps_heap_bind; [by intros w|]. intros. apply keeps_heap_ret.
  - intros [raw_results|]; keeps_heap.
Qed.

(** X15. The Candidate invariant. Whatever the services answer, every
    Candidate Agent 1 returns is a dict with exactly the keys 'name',
    'place_id', 'rating' and 'review_count', whose rating is a number
    ≥ min_rating and whose review count is a number with
    0 < review_count ≤ max_reviews; and Agent 1 leaves the store of
    candidate objects as it found it. *)
Theorem agent1_candidate_invariant city query max_reviews min_rating radius_m
    w w' unseen_spots :
  agent1_find_unseen_spots env city query max_reviews min_rating radius_m w
    = (w', Val unseen_spots) →
  Forall (candidate_ok min_rating max_reviews) unseen_spots
  ∧ heap w' = heap w.
Proof.
  intros Hrun. split.
  - by eapply agent1_candidate_ok.
  - pose proof (keeps_heap_agent1 city query max_reviews min_rating
                  radius_m w) as Hk.
    by rewrite Hrun in Hk.
Qed.

(** A hit whose rating is not a number stops the loop with a
    [TypeError], wherever it is in the list. *)
Lemma agent1_loop_non_numeric places max_reviews min_rating unseen_spots place :
  PDict place ∈ places →
  as_num (hit_rating place) = None →
  agent1_loop places max_reviews min_rating unseen_spots = Exc.
Proof.
  intros Hin Hr. revert unseen_spots.
  induction places as [|p rest IH]; intros unseen_spots.
  - by apply elem_of_nil in Hin.
  - cbn [agent1_loop]. unfold mbind, res_bind.
    apply elem_of_cons in Hin as [<-|Hin].
    + cbn [py_get]. fold (hit_rating place).
      unfold inverse_filter, py_ge, mbind, res_bind. by rewrite Hr.
    + destruct (py_get p "name" PNone) as [name|]; [|done].
      destruct (py_get p "place_id" PNone) as [place_id|]; [|done].
      destruct (py_get p "rating" (PInt 0)) as [rating|]; [|done].
      destruct (py_get p "user_ratings_total" (PInt 0)) as [count|]; [|done].
      destruct (inverse_filter rating count max_reviews min_rating)
        as [[|]|]; [by apply IH..|done].
Qed.

(** X16. The filter loop is outside the [try] block of Agent 1: a single
    raw hit whose rating is not a number (a string, a list, None) makes
    Agent 1 raise, after a successful search, instead of skipping the
    hit. *)
Theorem agent1_non_numeric_rating_raises city query max_reviews min_rating
    radius_m w w1 raw_results places place :
  agent1_search env city query radius_m
    (emit (EvWrite (MsgAgent1Searching query city)) w)
    = (w1, Val (Some raw_results)) →
  py_get raw_results "results" (PList []) = Val (PList places) →
  PDict place ∈ places →
  as_num (hit_rating place) = None →
  agent1_find_unseen_spots env city query max_reviews min_rating radius_m w
  = (w1, Exc).
Proof.
  intros Hsearch Hresults Hin Hr. unfold agent1_find_unseen_spots.
  erewrite bind_val by reflexivity.
  erewrite bind_val; last first.
  { unfold try_catch. by rewrite Hsearch. }
  cbn beta iota. rewrite (bind_lift_val _ _ _ _ Hresults).
  erewrite bind_lift_val by reflexivity.
  unfold mbind, M_bind, lift.
  by rewrite (agent1_loop_non_numeric _ _ _ _ _ Hin Hr).
Qed.

End DiscoveryEdges.

(** ** The orchestrator *)

Section Orchestrator.

Variable env : Env.
Variable str_as_int : string → option Z.

(** X12. Input validation: when the city or the vibe text is empty, the
    handler shows the validation error and does nothing else: no stage
    starts, no request is sent, the store is untouched. *)
Theorem handler_rejects_empty_input city vibe min_rating max_reviews w :
  city = "" ∨ vibe = "" →
  run_button_handler env str_as_int city vibe min_rating max_reviews w
  = (emit (EvError MsgPleaseEnter) w, Val tt).
Proof.
  unfold run_button_handler. intros [-> | ->]; [done|].
  by rewrite orb_true_r.
Qed.


(** *** Allocation of the candidates *)

Lemma alloc_all_spec ds w :
  ∃ ls w', alloc_all ds w = (w', Val ls)
    ∧ Forall2 (λ l d, heap w' !! l = Some d) ls ds
    ∧ (∀ l, l ∈ dom (heap w) → heap w' !! l = heap w !! l).
Proof.
  revert w. induction ds as [|d rest IH]; intros w.
  - exists [], w. by repeat split.
  - set (l := fresh (dom (heap w))).
    set (w1 := {| heap := <[l := d]> (heap w); log := log w |}).
    assert (l ∉ dom (heap w)) as Hfresh by apply is_fresh.
    destruct (IH w1) as (ls & w' & Hrun & Hall & Hold).
    exists (l :: ls), w'. cbn [alloc_all].
    erewrite bind_val by reflexivity. fold l w1.
    rewrite (bind_val _ _ _ _ _ Hrun). split; [done|]. split.
    + constructor; [|done]. rewrite Hold.
      * cbn. by rewrite lookup_insert_eq.
      * cbn. rewrite dom_insert_L. set_solver.
    + intros l' Hl'. rewrite Hold.
      * cbn. rewrite lookup_insert_ne; [done|]. by intros ->.
      * cbn. rewrite dom_insert_L. set_solver.
Qed.

Lemma candidate_ok_keys min_rating max_reviews d :
  candidate_ok min_rating max_reviews d →
  is_Some (d !! "name") ∧ is_Some (d !! "place_id")
  ∧ is_Some (d !! "rating") ∧ is_Some (d !! "review_count").
Proof.
  intros (name & place_id & rating & count & r & c & -> & -> & -> & -> & _).
  by repeat split.
Qed.

(** *** The stages on the handler's data *)

Lemma agent2_populated spots user_vibe w :
  types_oracle env "analyze_spot_vibe" = Val tt →
  discovered (heap w) spots →
  ∃ w' out,
    agent2_analyze_vibe env str_as_int spots user_vibe w = (w', Val out)
    ∧ Forall (populated (heap w')) out.
Proof.
  intros Ht Hd.
  assert (named (heap w) spots) as Hn.
  { unfold named. eapply Forall_impl; [exact Hd|]. by intros l [? _]. }
  destruct (agent2_returns env str_as_int user_vibe spots w Ht Hn)
    as (keyed & top & Hsnd & Hk & Hrun).
  eexists _, _. split; [exact Hrun|].
  apply Forall_forall. intros spot Hin. cbn [heap emit].
  assert (spot ∈ scored_spots env str_as_int user_vibe spots
            (emit (EvWrite (MsgAgent2Analyzing (length spots))) w)) as Hsc.
  { rewrite <- Hsnd. by rewrite <- (sort_desc_perm keyed). }
  destruct (scored_spots_analysed _ _ _ _ _ _ Hsc) as [Ha Hu].
  pose proof (scored_spots_elem_of _ _ _ _ _ _ Hsc) as Hspot.
  unfold discovered in Hd. rewrite Forall_forall in Hd.
  destruct (Hd _ Hspot) as (H1 & _ & H3 & H4).
  repeat split; try done; by apply run_spots_has_key.
Qed.

Lemma agent3_returns top_spots city vibe w :
  types_oracle env "generate_itinerary" = Val tt →
  Forall (populated (heap w)) top_spots →
  ∃ w' r, agent3_generate_narrative env top_spots city vibe w = (w', Val r).
Proof.
  intros Ht Hp. unfold agent3_generate_narrative.
  erewrite bind_val by reflexivity.
  destruct top_spots as [|spot rest]; [by eexists _, _|].
  destruct (summary_loop_populated (spot :: rest) []
    (emit (EvWrite (MsgAgent3Generating (length (spot :: rest)))) w) Hp)
    as (ds & Hds & _).
  rewrite (bind_val _ _ _ _ _ Hds). cbn [app].
  erewrite bind_val by (unfold tool_setup; by rewrite Ht).
  destruct (agent3_try env (ItineraryPrompt city vibe ds)
    (emit (EvWrite (MsgAgent3Generating (length (spot :: rest)))) w))
    as [(fc & rst & it & _ & _ & _ & ->)|[m ->]]; by eexists _, _.
Qed.


Lemma eqb_empty_false s : s ≠ "" → String.eqb s "" = false.
Proof. intros Hs. by apply String.eqb_neq. Qed.

(** Allocation shows nothing. *)
Lemma alloc_all_log ds w : log (alloc_all ds w).1 = log w.
Proof.
  revert w. induction ds as [|d ds IH]; intros w; [done|].
  cbn [alloc_all]. erewrite bind_val by reflexivity.
  specialize (IH {| heap := <[fresh (dom (heap w)) := d]> (heap w);
                    log := log w |}).
  destruct (alloc_all ds _) as [w3 [ls|]] eqn:E; cbn [fst] in IH.
  - by rewrite (bind_val _ _ _ _ _ E).
  - by rewrite (bind_exc _ _ _ _ E).
Qed.

(** The candidates of Agent 1, once allocated, carry the four keys. *)
Lemma alloc_all_discovered city vibe min_rating max_reviews w w1 unseen
    w2 spots :
  agent1_find_unseen_spots env city vibe max_reviews min_rating
    default_radius_m w = (w1, Val unseen) →
  alloc_all unseen w1 = (w2, Val spots) →
  discovered (heap w2) spots.
Proof.
  intros H1 Ha.
  pose proof (agent1_candidate_ok env _ _ _ _ _ _ _ _ H1) as Hok.
  destruct (alloc_all_spec unseen w1) as (ls & w2' & Ha' & Hall & _).
  rewrite Ha in Ha'. injection Ha' as <- <-.
  unfold discovered. clear -Hall Hok.
  induction Hall as [|l d' ls ds Hl _ IH]; [constructor|].
  apply Forall_cons in Hok as [Hd' Hok]. constructor; [|by apply IH].
  destruct (candidate_ok_keys _ _ _ Hd') as (?&?&?&?).
  unfold has_key. rewrite (lookup_total_correct _ _ _ Hl). by repeat split.
Qed.

(** The rest of the handler once Agent 1 has returned candidates. *)
Definition handler_after_agent1 (city vibe : string) (spots : list loc)
    : M unit :=
  analyzed_spots ← agent2_analyze_vibe env str_as_int spots vibe;
  match analyzed_spots with
  | [] => st_warning MsgAgent2NoMatch
  | _ :: _ =>
      final_itinerary ← agent3_generate_narrative env
                          (take 3 analyzed_spots) city vibe;
      match final_itinerary with
      | Some it => show_itinerary it;; show_raw_data (take 3 analyzed_spots)
      | None => st_error MsgAgent3Failed
      end
  end.

Lemma handler_with_candidates city vibe min_rating max_reviews w w1 unseen
    w2 spots :
  city ≠ "" → vibe ≠ "" →
  agent1_find_unseen_spots env city vibe max_reviews min_rating
    default_radius_m w = (w1, Val unseen) →
  unseen ≠ [] →
  alloc_all unseen w1 = (w2, Val spots) →
  run_button_handler env str_as_int city vibe min_rating max_reviews w
  = handler_after_agent1 city vibe spots w2.
Proof.
  intros Hc Hv H1 Hne Ha. unfold run_button_handler.
  rewrite (eqb_empty_false _ Hc), (eqb_empty_false _ Hv). cbn [orb].
  rewrite (bind_val _ _ _ _ _ H1).
  destruct unseen as [|d rest]; [done|].
  by rewrite (bind_val _ _ _ _ _ Ha).
Qed.

(** With populated candidates, Agent 3 raises exactly when the library
    cannot build its tool objects. *)
Lemma agent3_without_tools top_spots city vibe w :
  types_oracle env "generate_itinerary" = Exc →
  Forall (populated (heap w)) top_spots →
  top_spots ≠ [] →
  agent3_generate_narrative env top_spots city vibe w
  = (emit (EvWrite (MsgAgent3Generating (length top_spots))) w, Exc).
Proof.
  intros Ht Hp Hne. unfold agent3_generate_narrative.
  erewrite bind_val by reflexivity.
  destruct top_spots as [|spot rest]; [done|].
  destruct (summary_loop_populated (spot :: rest) []
    (emit (EvWrite (MsgAgent3Generating (length (spot :: rest)))) w) Hp)
    as (ds & Hds & _).
  rewrite (bind_val _ _ _ _ _ Hds).
  by erewrite bind_exc by (unfold tool_setup; by rewrite Ht).
Qed.

(** X17. What makes a run fail. With a non-empty city and vibe, the
    handler raises exactly in three cases: Agent 1 raises (its filter
    loop, on a hit with a non-numeric field); or Agent 1 found candidates
    and the library cannot build the tool objects of Agent 2; or Agent 2
    returned scored candidates and the library cannot build the tool
    objects of Agent 3. Every other failure of Agent 2 and Agent 3 on the
    candidates of Agent 1 (a failed fetch, a failed request, an invalid
    answer) ends in a message, never in an exception. *)
Theorem handler_raises_iff city vibe min_rating max_reviews w :
  city ≠ "" → vibe ≠ "" →
  (run_button_handler env str_as_int city vibe min_rating max_reviews w).2
    = Exc
  ↔ (agent1_find_unseen_spots env city vibe max_reviews min_rating
       default_radius_m w).2 = Exc
    ∨ ∃ w1 unseen w2 spots,
        agent1_find_unseen_spots env city vibe max_reviews min_rating
          default_radius_m w = (w1, Val unseen)
        ∧ unseen ≠ []
        ∧ alloc_all unseen w1 = (w2, Val spots)
        ∧ (types_oracle env "analyze_spot_vibe" = Exc
           ∨ ∃ w3 out,
               agent2_analyze_vibe env str_as_int spots vibe w2
                 = (w3, Val out)
               ∧ out ≠ []
               ∧ types_oracle env "generate_itinerary" = Exc).
Proof.
  intros Hc Hv.
  destruct (agent1_find_unseen_spots env city vibe max_reviews min_rating
              default_radius_m w) as [w1 [unseen|]] eqn:H1; cbn [snd];
    last first.
  { split; [by left|]. intros _. unfold run_button_handler.
    rewrite (eqb_empty_false _ Hc), (eqb_empty_false _ Hv). cbn [orb].
    by rewrite (bind_exc _ _ _ _ H1). }
  destruct unseen as [|d rest].
  { unfold run_button_handler.
    rewrite (eqb_empty_false _ Hc), (eqb_empty_false _ Hv). cbn [orb].
    rewrite (bind_val _ _ _ _ _ H1). split; [done|].
    intros [?|(? & ? & ? & ? & Heq & Hne & _)]; [done|].
    by injection Heq as <- <-. }
  destruct (alloc_all_spec (d :: rest) w1) as (ls & w2 & Ha & _ & _).
  pose proof (alloc_all_discovered _ _ _ _ _ _ _ _ _ H1 Ha) as Hd.
  rewrite (handler_with_candidates _ _ _ _ _ _ _ _ _ Hc Hv H1 ltac:(done) Ha).
  unfold handler_after_agent1.
  destruct (types_oracle env "analyze_spot_vibe") as [[]|] eqn:Ht2; last first.
  { erewrite bind_exc by (by apply agent2_without_tools).
    split; [|done]. intros _. right. exists w1, (d :: rest), w2, ls.
    repeat split; try done. by left. }
  destruct (agent2_populated ls vibe w2 Ht2 Hd) as (w3 & out & H2 & Hpop).
  rewrite (bind_val _ _ _ _ _ H2).
  destruct out as [|spot out'].
  { split; [done|].
    intros [?|(? & ? & ? & ? & Heq & _ & Ha' & Hor)]; [done|].
    injection Heq as <- <-. rewrite Ha in Ha'. injection Ha' as <- <-.
    destruct Hor as [?|(? & ? & H2' & Hne' & _)]; [done|].
    rewrite H2 in H2'. by injection H2' as <- <-. }
  assert (Forall (populated (heap w3)) (take 3 (spot :: out'))) as Htop
    by (by apply Forall_take).
  destruct (types_oracle env "generate_itinerary") as [[]|] eqn:Ht3.
  - destruct (agent3_returns (take 3 (spot :: out')) city vibe w3 Ht3 Htop)
      as (w4 & r & H3).
    rewrite (bind_val _ _ _ _ _ H3).
    assert ((match r with
             | Some it => show_itinerary it;;
                          show_raw_data (take 3 (spot :: out'))
             | None => st_error MsgAgent3Failed
             end w4).2 = Val tt) as -> by (by destruct r).
    split; [done|].
    intros [?|(? & ? & ? & ? & _ & _ & _ & [?|(? & ? & _ & _ & ?)])]; done.
  - erewrite bind_exc by (by apply agent3_without_tools).
    split; [|done]. intros _. right. exists w1, (d :: rest), w2, ls.
    repeat split; try done. right. by exists w3, (spot :: out').
Qed.

(** X21. When the library cannot build the tool objects of Agent 2
    (lines 117-133 stand outside every [try]), a run that found
    candidates fails: with a non-empty city and vibe and a non-empty
    result of Agent 1, the handler raises inside Agent 2 right after its
    opening message, before any place-details or model request. *)
Theorem handler_without_tools city vibe min_rating max_reviews w w1 unseen :
  city ≠ "" → vibe ≠ "" →
  types_oracle env "analyze_spot_vibe" = Exc →
  agent1_find_unseen_spots env city vibe max_reviews min_rating
    default_radius_m w = (w1, Val unseen) →
  unseen ≠ [] →
  ∃ w2 spots,
    alloc_all unseen w1 = (w2, Val spots)
    ∧ log w2 = log w1
    ∧ run_button_handler env str_as_int city vibe min_rating max_reviews w
      = (emit (EvWrite (MsgAgent2Analyzing (length spots))) w2, Exc).
Proof.
  intros Hc Hv Ht H1 Hne.
  destruct (alloc_all_spec unseen w1) as (ls & w2 & Ha & _ & _).
  exists w2, ls. split; [done|]. split.
  - pose proof (alloc_all_log unseen w1) as Hlog. by rewrite Ha in Hlog.
  - rewrite (handler_with_candidates _ _ _ _ _ _ _ _ _ Hc Hv H1 Hne Ha).
    unfold handler_after_agent1.
    by erewrite bind_exc by (by apply agent2_without_tools).
Qed.

(** X18. The exits of the handler. With a non-empty city and vibe, once
    Agent 1 has returned: with no candidate the handler shows the
    "no spots" warning and stops, Agent 2 and Agent 3 are not started.
    Otherwise Agent 2 runs on the allocated candidates: if it raises, the
    exception leaves the handler as it is, nothing more is shown; if it
    returns no scored candidate the handler shows the "no match" warning
    and stops, Agent 3 is not started; else Agent 3 runs on the first
    three: if it raises so does the handler, if it returns None the
    handler shows the "Agent 3 failed" error, and an itinerary is shown
    followed by the raw data of the first three. *)
Theorem handler_early_exits city vibe min_rating max_reviews w w1 unseen :
  city ≠ "" → vibe ≠ "" →
  agent1_find_unseen_spots env city vibe max_reviews min_rating
    default_radius_m w = (w1, Val unseen) →
  let run := run_button_handler env str_as_int city vibe min_rating
               max_reviews w in
  match unseen with
  | [] => run = (emit (EvWarning MsgAgent1NoMatch) w1, Val tt)
  | _ :: _ =>
      ∃ w2 spots,
        alloc_all unseen w1 = (w2, Val spots)
        ∧ log w2 = log w1
        ∧ match agent2_analyze_vibe env str_as_int spots vibe w2 with
          | (w3, Exc) => run = (w3, Exc)
          | (w3, Val []) => run = (emit (EvWarning MsgAgent2NoMatch) w3, Val tt)
          | (w3, Val (spot :: rest)) =>
              let top := take 3 (spot :: rest) in
              match agent3_generate_narrative env top city vibe w3 with
              | (w4, Exc) => run = (w4, Exc)
              | (w4, Val None) => run = (emit (EvError MsgAgent3Failed) w4, Val tt)
              | (w4, Val (Some it)) =>
                  run = (emit (EvShowRawData ((λ l, heap w4 !!! l) <$> top))
                           (emit (EvShowItinerary it) w4), Val tt)
              end
          end
  end.
Proof.
  intros Hc Hv H1 run. subst run.
  destruct unseen as [|d rest].
  { unfold run_button_handler.
    rewrite (eqb_empty_false _ Hc), (eqb_empty_false _ Hv). cbn [orb].
    by rewrite (bind_val _ _ _ _ _ H1). }
  destruct (alloc_all_spec (d :: rest) w1) as (ls & w2 & Ha & _ & _).
  exists w2, ls. split; [done|]. split.
  { pose proof (alloc_all_log (d :: rest) w1) as Hlog. by rewrite Ha in Hlog. }
  rewrite (handler_with_candidates _ _ _ _ _ _ _ _ _ Hc Hv H1 ltac:(done) Ha).
  unfold handler_after_agent1.
  destruct (agent2_analyze_vibe env str_as_int ls vibe w2)
    as [w3 [[|spot out]|]] eqn:H2.
  - by rewrite (bind_val _ _ _ _ _ H2).
  - rewrite (bind_val _ _ _ _ _ H2). cbv zeta.
    destruct (agent3_generate_narrative env (take 3 (spot :: out)) city vibe w3)
      as [w4 [[it|]|]] eqn:H3.
    + by rewrite (bind_val _ _ _ _ _ H3).
    + by rewrite (bind_val _ _ _ _ _ H3).
    + by rewrite (bind_exc _ _ _ _ H3).
  - by rewrite (bind_exc _ _ _ _ H2).
Qed.

End Orchestrator.

(** ** Worked examples *)

Section Examples.

Lemma w3_discovered : discovered (heap Demo.w3) [0; 1; 2]%nat.
Proof. repeat constructor; by eexists. Qed.

Lemma w3_named : named (heap Demo.w3) [0; 1; 2]%nat.
Proof. repeat constructor; by eexists. Qed.

(** The place ids requested in a trace, in order. *)
Definition places_requested (t : trace) : list pyval :=
  t ≫= λ e, match e with EvPlace place_id => [place_id] | _ => [] end.

Lemma w4_named : named (heap Demo.w4) [0; 1; 2; 3]%nat.
Proof. repeat constructor; by eexists. Qed.

Lemma agent2_sorted_stable_witness :
  let scored :=
    scored_spots Demo.lisbon_env Demo.no_str_ints "cozy" [0; 1; 2]%nat
      (emit (EvWrite (MsgAgent2Analyzing 3)) Demo.w3) in
  (∃ w' out,
     agent2_analyze_vibe Demo.lisbon_env Demo.no_str_ints [0; 1; 2]%nat "cozy"
       Demo.w3 = (w', Val out)
     ∧ scored `sublist_of` [0; 1; 2]%nat
     ∧ out ≡ₚ scored
     ∧ (∀ i j a b, (i < j)%nat → out !! i = Some a → out !! j = Some b →
          by_score (heap w') a b)
     ∧ (∀ k, filter (λ spot, vibe_score (heap w') spot = Some k) out
             = filter (λ spot, vibe_score (heap w') spot = Some k) scored))
  ∧ agent2_analyze_vibe Demo.toolless_env Demo.no_str_ints [0; 1; 2]%nat
      "cozy" Demo.w3
    = (emit (EvWrite (MsgAgent2Analyzing 3)) Demo.w3, Exc).
Proof.
  split.
  - exact (agent2_sorted_stable Demo.lisbon_env Demo.no_str_ints "cozy"
             [0; 1; 2]%nat Demo.w3 w3_named).
  - exact (agent2_sorted_stable Demo.toolless_env Demo.no_str_ints "cozy"
             [0; 1; 2]%nat Demo.w3 w3_named).
Defined.

Lemma agent2_in_place_witness :
  let w0 := emit (EvWrite (MsgAgent2Analyzing 3)) Demo.w3 in
  (∃ w' out,
     agent2_analyze_vibe Demo.lisbon_env Demo.no_str_ints [0; 1; 2]%nat "cozy"
       Demo.w3 = (w', Val out)
     ∧ (∀ spot, spot ∈ out → spot ∈ [0; 1; 2]%nat)
     ∧ (∀ l k, l ∉ [0; 1; 2]%nat ∨ (k ≠ "url" ∧ k ≠ "vibe_analysis") →
          (heap w' !!! l) !! k = (heap Demo.w3 !!! l) !! k)
     ∧ (∀ i spot url, [0; 1; 2]%nat !! i = Some spot →
          details_fetched Demo.lisbon_env spot
            (run_spots Demo.lisbon_env Demo.no_str_ints "cozy"
               (take i [0; 1; 2]%nat) w0) url →
          (heap (run_spots Demo.lisbon_env Demo.no_str_ints "cozy"
                   (take (S i) [0; 1; 2]%nat) w0) !!! spot) !! "url"
          = Some url
          ∧ has_key (heap w') "url" spot))
  ∧ agent2_analyze_vibe Demo.toolless_env Demo.no_str_ints [0; 1; 2]%nat
      "cozy" Demo.w3 = (w0, Exc).
Proof.
  split.
  - exact (agent2_in_place Demo.lisbon_env Demo.no_str_ints "cozy"
             [0; 1; 2]%nat Demo.w3 w3_named).
  - exact (agent2_in_place Demo.toolless_env Demo.no_str_ints "cozy"
             [0; 1; 2]%nat Demo.w3 w3_named).
Defined.

Lemma agent2_failure_isolation_witness :
  let w0 := emit (EvWrite (MsgAgent2Analyzing 4)) Demo.w4 in
  (∃ w' out,
     agent2_analyze_vibe Demo.lisbon_env Demo.no_str_ints [0; 1; 2; 3]%nat
       "cozy" Demo.w4 = (w', Val out)
     ∧ (∀ i spot place_id, [0; 1; 2; 3]%nat !! i = Some spot →
          (heap Demo.w4 !!! spot) !! "place_id" = Some place_id →
          EvPlace place_id ∈ log w')
     ∧ (∀ i spot, [0; 1; 2; 3]%nat !! i = Some spot →
          spot_outcome Demo.lisbon_env Demo.no_str_ints "cozy" spot
            (run_spots Demo.lisbon_env Demo.no_str_ints "cozy"
               (take i [0; 1; 2; 3]%nat) w0) = Scored →
          spot ∈ out))
  ∧ agent2_analyze_vibe Demo.toolless_env Demo.no_str_ints [0; 1; 2; 3]%nat
      "cozy" Demo.w4 = (w0, Exc).
Proof.
  split.
  - exact (agent2_failure_isolation Demo.lisbon_env Demo.no_str_ints "cozy"
             [0; 1; 2; 3]%nat Demo.w4 w4_named).
  - exact (agent2_failure_isolation Demo.toolless_env Demo.no_str_ints "cozy"
             [0; 1; 2; 3]%nat Demo.w4 w4_named).
Defined.

(** The run behind the last example. The fetch of "X" raises and is
    reported; "B", which comes after it, and "C" are still fetched, and
    "B" (11) and "A" (7) are returned. *)
Example agent2_mixed_run :
  let w0 := emit (EvWrite (MsgAgent2Analyzing 4)) Demo.w4 in
  let run := agent2_analyze_vibe Demo.lisbon_env Demo.no_str_ints
               [0; 1; 2; 3]%nat "cozy" Demo.w4 in
  spot_outcome Demo.lisbon_env Demo.no_str_ints "cozy" 1%nat
    (run_spots Demo.lisbon_env Demo.no_str_ints "cozy" [0%nat] w0) = Failed
  ∧ spot_outcome Demo.lisbon_env Demo.no_str_ints "cozy" 2%nat
      (run_spots Demo.lisbon_env Demo.no_str_ints "cozy" [0; 1]%nat w0)
    = Scored
  ∧ run.2 = Val [2; 0]%nat
  ∧ places_requested (log run.1) = [PStr "a"; PStr "x"; PStr "b"; PStr "c"].
Proof. repeat split; vm_compute; reflexivity. Qed.

Lemma agent2_url_stored_witness :
  let w0 := emit (EvWrite (MsgAgent2Analyzing 3)) Demo.w3 in
  (∃ w' out,
     agent2_analyze_vibe Demo.lisbon_env Demo.no_str_ints [0; 1; 2]%nat "cozy"
       Demo.w3 = (w', Val out)
     ∧ ∀ i spot url, [0; 1; 2]%nat !! i = Some spot →
         details_fetched Demo.lisbon_env spot
           (run_spots Demo.lisbon_env Demo.no_str_ints "cozy"
              (take i [0; 1; 2]%nat) w0) url →
         (heap (run_spots Demo.lisbon_env Demo.no_str_ints "cozy"
                  (take (S i) [0; 1; 2]%nat) w0) !!! spot) !! "url" = Some url
         ∧ has_key (heap w') "url" spot)
  ∧ agent2_analyze_vibe Demo.toolless_env Demo.no_str_ints [0; 1; 2]%nat
      "cozy" Demo.w3
    = (emit (EvWrite (MsgAgent2Analyzing 3)) Demo.w3, Exc).
Proof.
  split.
  - exact (agent2_url_stored Demo.lisbon_env Demo.no_str_ints "cozy"
             [0; 1; 2]%nat Demo.w3 w3_named).
  - exact (agent2_url_stored Demo.toolless_env Demo.no_str_ints "cozy"
             [0; 1; 2]%nat Demo.w3 w3_named).
Defined.

Lemma agent2_returns_iff_named_witness :
  (∃ w' out,
     agent2_analyze_vibe Demo.lisbon_env Demo.no_str_ints [0; 1; 2]%nat
       "cozy" Demo.w3 = (w', Val out))
  ∧ ¬ (∃ w' out,
         agent2_analyze_vibe Demo.toolless_env Demo.no_str_ints
           [0; 1; 2]%nat "cozy" Demo.w3 = (w', Val out)).
Proof.
  split.
  - apply (agent2_returns_iff_named Demo.lisbon_env Demo.no_str_ints "cozy"
             [0; 1; 2]%nat Demo.w3).
    split; [reflexivity|exact w3_named].
  - intros H.
    apply (agent2_returns_iff_named Demo.toolless_env Demo.no_str_ints "cozy"
             [0; 1; 2]%nat Demo.w3) in H as [H _].
    discriminate H.
Defined.

Lemma agent2_output_populated_witness :
  (∃ w' out,
     agent2_analyze_vibe Demo.lisbon_env Demo.no_str_ints [0; 1; 2]%nat "cozy"
       Demo.w3 = (w', Val out)
     ∧ ∀ spot, spot ∈ out →
         has_key (heap w') "url" spot
         ∧ ∃ va, (heap w' !!! spot) !! "vibe_analysis"
                   = Some (SpotVibeAnalysis_model_dump va)
                 ∧ vibe_score (heap w') spot = Some (vibe_match_score va))
  ∧ agent2_analyze_vibe Demo.toolless_env Demo.no_str_ints [0; 1; 2]%nat
      "cozy" Demo.w3
    = (emit (EvWrite (MsgAgent2Analyzing 3)) Demo.w3, Exc).
Proof.
  split.
  - exact (agent2_output_populated Demo.lisbon_env Demo.no_str_ints "cozy"
             [0; 1; 2]%nat Demo.w3 w3_named).
  - exact (agent2_output_populated Demo.toolless_env Demo.no_str_ints "cozy"
             [0; 1; 2]%nat Demo.w3 w3_named).
Defined.

Lemma agent2_output_summarizable_witness :
  (∃ w' out,
     agent2_analyze_vibe Demo.lisbon_env Demo.no_str_ints [0; 1; 2]%nat "cozy"
       Demo.w3 = (w', Val out)
     ∧ ∀ n, ∃ ds, summary_loop (take n out) [] w' = (w', Val ds)
                  ∧ length ds = length (take n out))
  ∧ agent2_analyze_vibe Demo.toolless_env Demo.no_str_ints [0; 1; 2]%nat
      "cozy" Demo.w3
    = (emit (EvWrite (MsgAgent2Analyzing 3)) Demo.w3, Exc).
Proof.
  split.
  - exact (agent2_output_summarizable Demo.lisbon_env Demo.no_str_ints "cozy"
             [0; 1; 2]%nat Demo.w3 w3_discovered).
  - exact (agent2_output_summarizable Demo.toolless_env Demo.no_str_ints "cozy"
             [0; 1; 2]%nat Demo.w3 w3_discovered).
Defined.

(** The run behind these examples: "B" (11) comes before "A" (7); "C" has
    no reviews and is skipped, with its url stored all the same. *)
Example agent2_lisbon_run :
  (agent2_analyze_vibe Demo.lisbon_env Demo.no_str_ints [0; 1; 2]%nat "cozy"
     Demo.w3).2 = Val [1; 0]%nat
  ∧ (heap (agent2_analyze_vibe Demo.lisbon_env Demo.no_str_ints
             [0; 1; 2]%nat "cozy" Demo.w3).1 !!! 2%nat) !! "url"
    = Some (PStr "https://maps/c").
Proof. split; vm_compute; reflexivity. Qed.

Lemma w_scored_populated : Forall (populated (heap Demo.w_scored)) [0; 1]%nat.
Proof.
  repeat constructor; try (by eexists);
    by (exists (Demo.verdict 11)) || by (exists (Demo.verdict 7)).
Qed.

Lemma agent3_contained_witness :
  let w0 := emit (EvWrite (MsgAgent3Generating 2)) Demo.w_scored in
  (∃ ds, length ds = 2%nat ∧
     let w1 := emit (EvGenerate (ItineraryPrompt "Lisbon" "cozy" ds)
                       "generate_itinerary") w0 in
     (∃ it, agent3_generate_narrative Demo.composer_env [0; 1]%nat
              "Lisbon" "cozy" Demo.w_scored = (w1, Val (Some it)))
     ∨ (∃ m, agent3_generate_narrative Demo.composer_env [0; 1]%nat
               "Lisbon" "cozy" Demo.w_scored
             = (emit (EvError m) w1, Val None)))
  ∧ agent3_generate_narrative Demo.toolless_env [0; 1]%nat "Lisbon" "cozy"
      Demo.w_scored = (w0, Exc)
  ∧ agent3_generate_narrative Demo.composer_env [] "Lisbon" "cozy"
      Demo.w_scored
    = (emit (EvWrite (MsgAgent3Generating 0)) Demo.w_scored, Val None).
Proof.
  split; [|split].
  - exact (agent3_contained Demo.composer_env [0; 1]%nat "Lisbon" "cozy"
             Demo.w_scored w_scored_populated).
  - exact (agent3_contained Demo.toolless_env [0; 1]%nat "Lisbon" "cozy"
             Demo.w_scored w_scored_populated).
  - exact (agent3_contained Demo.composer_env [] "Lisbon" "cozy"
             Demo.w_scored (Forall_nil_2 _)).
Defined.

(** Two candidates went in; the model sent one spot and one spot is
    returned. *)
Lemma agent3_short_itinerary :
  ∃ w' it,
    agent3_generate_narrative Demo.composer_env [0; 1]%nat "Lisbon" "cozy"
      Demo.w_scored = (w', Val (Some it))
    ∧ length (itinerary_spots it) = 1%nat.
Proof. eexists _, _. split; [vm_compute; reflexivity|reflexivity]. Qed.

Lemma agent3_itinerary_from_model_witness :
  (∃ w' it ds fc rest l,
     agent3_generate_narrative Demo.composer_env [0; 1]%nat "Lisbon" "cozy"
       Demo.w_scored = (w', Val (Some it))
     ∧ summary_loop [0; 1]%nat []
         (emit (EvWrite (MsgAgent3Generating 2)) Demo.w_scored)
       = (emit (EvWrite (MsgAgent3Generating 2)) Demo.w_scored, Val ds)
     ∧ generate_content_oracle Demo.composer_env
         (log (emit (EvWrite (MsgAgent3Generating 2)) Demo.w_scored))
         (ItineraryPrompt "Lisbon" "cozy" ds) "generate_itinerary"
       = Val (fc :: rest)
     ∧ FinalItinerary_model_validate (fc_args fc) = Val it
     ∧ fc_args fc !! "itinerary_spots" = Some (PList l)
     ∧ length (itinerary_spots it) = length l)
  ∧ ∀ w' it,
      agent3_generate_narrative Demo.toolless_env [0; 1]%nat "Lisbon" "cozy"
        Demo.w_scored ≠ (w', Val (Some it)).
Proof.
  split.
  - destruct agent3_short_itinerary as (w' & it & Hrun & _).
    destruct (proj1 (agent3_itinerary_from_model Demo.composer_env
                       [0; 1]%nat "Lisbon" "cozy" Demo.w_scored w' it) Hrun)
      as (_ & ds & fc & rest & l & H1 & H2 & H3 & H4 & H5 & H6 & H7 & H8).
    by exists w', it, ds, fc, rest, l.
  - intros w' it Hrun.
    destruct (proj1 (agent3_itinerary_from_model Demo.toolless_env
                       [0; 1]%nat "Lisbon" "cozy" Demo.w_scored w' it) Hrun)
      as (_ & ds & fc & rest & l & _ & Ht & _).
    discriminate Ht.
Defined.

Lemma agent3_missing_url_raises_witness :
  agent3_generate_narrative Demo.composer_env [0; 2]%nat "Lisbon" "cozy"
    Demo.w_scored
  = (emit (EvWrite (MsgAgent3Generating 2)) Demo.w_scored, Exc).
Proof.
  apply (agent3_missing_url_raises Demo.composer_env [0; 2]%nat "Lisbon"
           "cozy" Demo.w_scored).
  intros H. apply Forall_cons in H as [_ H]. apply Forall_cons in H as [[v Hv] _].
  vm_compute in Hv. discriminate Hv.
Defined.

Lemma agent1_city_not_found_witness :
  agent1_find_unseen_spots Demo.nowhere_env "Atlantis" "cozy cafe" 500
    (45 # 10) 3000 Demo.w0
  = (emit (EvError (MsgCityNotFound "Atlantis"))
       (emit (EvGeocode "Atlantis")
          (emit (EvWrite (MsgAgent1Searching "cozy cafe" "Atlantis")) Demo.w0)),
     Val []).
Proof.
  exact (agent1_city_not_found Demo.nowhere_env "Atlantis" "cozy cafe" 500
           (45 # 10) 3000 Demo.w0 (PList []) eq_refl eq_refl).
Defined.

Lemma agent1_candidate_invariant_witness :
  Forall (candidate_ok (45 # 10) 500)
    [Demo.spot "A" "a" (46 # 10) 120;
     new_spot PNone PNone (PFloat (46 # 10)) (PInt 120)]
  ∧ heap (emit (EvWrite (MsgAgent1Found 2)) Demo.lisbon_searched)
    = heap Demo.w0.
Proof.
  refine (agent1_candidate_invariant Demo.lisbon_env "Lisbon, Portugal"
    "cozy cafe" 500 (45 # 10) 3000 Demo.w0
    (emit (EvWrite (MsgAgent1Found 2)) Demo.lisbon_searched) _ _).
  vm_compute. reflexivity.
Defined.

Lemma agent1_non_numeric_rating_raises_witness :
  agent1_find_unseen_spots Demo.text_rating_env "Lisbon, Portugal" "cozy cafe"
    500 (45 # 10) 3000 Demo.w0
  = (Demo.lisbon_searched, Exc).
Proof.
  refine (agent1_non_numeric_rating_raises Demo.text_rating_env
    "Lisbon, Portugal" "cozy cafe" 500 (45 # 10) 3000 Demo.w0
    Demo.lisbon_searched
    (PDict {[ "results" :=
       PList (PDict <$> [Demo.hit "A" "a" (46 # 10) 120; Demo.text_rating_hit]) ]})
    (PDict <$> [Demo.hit "A" "a" (46 # 10) 120; Demo.text_rating_hit])
    Demo.text_rating_hit _ _ _ _).
  - vm_compute. reflexivity.
  - reflexivity.
  - right. left.
  - reflexivity.
Defined.

Lemma handler_rejects_empty_input_witness :
  run_button_handler Demo.lisbon_env Demo.no_str_ints "Lisbon, Portugal" ""
    (45 # 10) 500 Demo.w0
  = (emit (EvError MsgPleaseEnter) Demo.w0, Val tt).
Proof.
  apply (handler_rejects_empty_input Demo.lisbon_env Demo.no_str_ints
           "Lisbon, Portugal" "" (45 # 10) 500 Demo.w0).
  by right.
Defined.

(** A complete run: Agent 1 keeps two hits, Agent 2 scores the first and
    fails on the anonymous one, Agent 3 returns an itinerary, which is
    shown with the raw data. *)
Example handler_lisbon_run :
  let run := run_button_handler Demo.composer_env Demo.no_str_ints
               "Lisbon, Portugal" "cozy cafe" (45 # 10) 500 Demo.w0 in
  (agent1_find_unseen_spots Demo.composer_env "Lisbon, Portugal" "cozy cafe"
     500 (45 # 10) default_radius_m Demo.w0).2
  = Val [Demo.spot "A" "a" (46 # 10) 120;
         new_spot PNone PNone (PFloat (46 # 10)) (PInt 120)]
  ∧ run.2 = Val tt
  ∧ ∃ ds, last (log run.1) = Some (EvShowRawData ds) ∧ length ds = 1%nat.
Proof.
  split; [vm_compute; reflexivity|]. split; [vm_compute; reflexivity|].
  eexists. split; [vm_compute; reflexivity|reflexivity].
Qed.

Lemma handler_raises_iff_witness :
  (run_button_handler Demo.composer_env Demo.no_str_ints
     "Lisbon, Portugal" "cozy cafe" (45 # 10) 500 Demo.w0).2 ≠ Exc
  ∧ (run_button_handler Demo.text_rating_env Demo.no_str_ints
       "Lisbon, Portugal" "cozy cafe" (45 # 10) 500 Demo.w0).2 = Exc
  ∧ (run_button_handler Demo.toolless_env Demo.no_str_ints
       "Lisbon, Portugal" "cozy cafe" (45 # 10) 500 Demo.w0).2 = Exc.
Proof.
  split; [|split].
  - intros H.
    apply (handler_raises_iff Demo.composer_env Demo.no_str_ints
             "Lisbon, Portugal" "cozy cafe" (45 # 10) 500 Demo.w0) in H;
      [|discriminate|discriminate].
    destruct H as [H|(w1 & unseen & w2 & spots & _ & _ & _ &
                      [H|(w3 & out & _ & _ & H)])]; discriminate H.
  - apply (handler_raises_iff Demo.text_rating_env Demo.no_str_ints
             "Lisbon, Portugal" "cozy cafe" (45 # 10) 500 Demo.w0);
      [discriminate|discriminate|].
    left. vm_compute. reflexivity.
  - apply (handler_raises_iff Demo.toolless_env Demo.no_str_ints
             "Lisbon, Portugal" "cozy cafe" (45 # 10) 500 Demo.w0);
      [discriminate|discriminate|].
    right. eexists _, _, _, _. split; [vm_compute; reflexivity|].
    split; [discriminate|]. split; [vm_compute; reflexivity|]. by left.
Defined.

Lemma handler_without_tools_witness :
  ∃ w2 spots,
    alloc_all [Demo.spot "A" "a" (46 # 10) 120;
               new_spot PNone PNone (PFloat (46 # 10)) (PInt 120)]
      (emit (EvWrite (MsgAgent1Found 2)) Demo.lisbon_searched)
    = (w2, Val spots)
    ∧ log w2 = log (emit (EvWrite (MsgAgent1Found 2)) Demo.lisbon_searched)
    ∧ run_button_handler Demo.toolless_env Demo.no_str_ints
        "Lisbon, Portugal" "cozy cafe" (45 # 10) 500 Demo.w0
      = (emit (EvWrite (MsgAgent2Analyzing (length spots))) w2, Exc).
Proof.
  refine (handler_without_tools Demo.toolless_env Demo.no_str_ints
    "Lisbon, Portugal" "cozy cafe" (45 # 10) 500 Demo.w0
    (emit (EvWrite (MsgAgent1Found 2)) Demo.lisbon_searched)
    [Demo.spot "A" "a" (46 # 10) 120;
     new_spot PNone PNone (PFloat (46 # 10)) (PInt 120)] _ _ eq_refl _ _).
  - discriminate.
  - discriminate.
  - vm_compute. reflexivity.
  - discriminate.
Defined.

(** The world of a run on [Demo.quiet_env] after Agent 1 and the
    allocation of its one candidate, and after Agent 2. *)
Definition quiet_found : World :=
  emit (EvWrite (MsgAgent1Found 1)) Demo.lisbon_searched.

Definition quiet_allocated : World :=
  {| heap := {[ 0%nat := Demo.spot "C" "c" (47 # 10) 15 ]};
     log := log quiet_found |}.

Definition quiet_analyzed : World :=
  (agent2_analyze_vibe Demo.quiet_env Demo.no_str_ints [0%nat] "cozy cafe"
     quiet_allocated).1.

Lemma handler_early_exits_witness :
  run_button_handler Demo.nowhere_env Demo.no_str_ints "Atlantis"
    "cozy cafe" (45 # 10) 500 Demo.w0
  = (emit (EvWarning MsgAgent1NoMatch)
       (emit (EvError (MsgCityNotFound "Atlantis"))
          (emit (EvGeocode "Atlantis")
             (emit (EvWrite (MsgAgent1Searching "cozy cafe" "Atlantis"))
                Demo.w0))), Val tt)
  ∧ (∃ w2 spots,
       alloc_all [Demo.spot "C" "c" (47 # 10) 15] quiet_found
         = (w2, Val spots)
       ∧ log w2 = log quiet_found
       ∧ run_button_handler Demo.quiet_env Demo.no_str_ints
           "Lisbon, Portugal" "cozy cafe" (45 # 10) 500 Demo.w0
         = (emit (EvWarning MsgAgent2NoMatch) quiet_analyzed, Val tt))
  ∧ (∃ w2 spots,
       alloc_all [Demo.spot "A" "a" (46 # 10) 120;
                  new_spot PNone PNone (PFloat (46 # 10)) (PInt 120)]
         (emit (EvWrite (MsgAgent1Found 2)) Demo.lisbon_searched)
         = (w2, Val spots)
       ∧ log w2
         = log (emit (EvWrite (MsgAgent1Found 2)) Demo.lisbon_searched)
       ∧ run_button_handler Demo.toolless_env Demo.no_str_ints
           "Lisbon, Portugal" "cozy cafe" (45 # 10) 500 Demo.w0
         = (emit (EvWrite (MsgAgent2Analyzing 2)) w2, Exc)).
Proof.
  split; [|split].
  - refine (handler_early_exits Demo.nowhere_env Demo.no_str_ints
      "Atlantis" "cozy cafe" (45 # 10) 500 Demo.w0 _ [] _ _ _);
      [discriminate|discriminate|vm_compute; reflexivity].
  - pose proof (handler_early_exits Demo.quiet_env Demo.no_str_ints
      "Lisbon, Portugal" "cozy cafe" (45 # 10) 500 Demo.w0 quiet_found
      [Demo.spot "C" "c" (47 # 10) 15]) as H.
    destruct H as (w2 & spots & Ha & Hlog & H);
      [discriminate|discriminate|vm_compute; reflexivity|].
    exists w2, spots. split; [done|]. split; [done|].
    assert ((w2, Val spots) = (quiet_allocated, Val [0%nat])) as Heq
      by (rewrite <- Ha; vm_compute; reflexivity).
    injection Heq as -> ->.
    assert (agent2_analyze_vibe Demo.quiet_env Demo.no_str_ints [0%nat]
              "cozy cafe" quiet_allocated = (quiet_analyzed, Val [])) as H2
      by (vm_compute; reflexivity).
    rewrite H2 in H. exact H.
  - pose proof (handler_early_exits Demo.toolless_env Demo.no_str_ints
      "Lisbon, Portugal" "cozy cafe" (45 # 10) 500 Demo.w0
      (emit (EvWrite (MsgAgent1Found 2)) Demo.lisbon_searched)
      [Demo.spot "A" "a" (46 # 10) 120;
       new_spot PNone PNone (PFloat (46 # 10)) (PInt 120)]) as H.
    destruct H as (w2 & spots & Ha & Hlog & H);
      [discriminate|discriminate|vm_compute; reflexivity|].
    exists w2, spots. split; [done|]. split; [done|].
    assert (length spots = 2%nat) as Hlen.
    { assert ((w2, Val spots).2 = Val [0; 1]%nat) as Heq
        by (rewrite <- Ha; vm_compute; reflexivity).
      by injection Heq as ->. }
    rewrite (agent2_without_tools Demo.toolless_env Demo.no_str_ints
               "cozy cafe" spots w2 eq_refl) in H.
    by rewrite Hlen in H.
Defined.

(** The whole run on the unknown city: the start message, the geocoding
    request, the "city not found" error and the "no spots" warning. *)
Example handler_unknown_city :
  run_button_handler Demo.nowhere_env Demo.no_str_ints "Atlantis" "cozy cafe"
    (45 # 10) 500 Demo.w0
  = ({| heap := ∅;
        log := [EvWrite (MsgAgent1Searching "cozy cafe" "Atlantis");
                EvGeocode "Atlantis";
                EvError (MsgCityNotFound "Atlantis");
                EvWarning MsgAgent1NoMatch] |}, Val tt).
Proof. vm_compute. reflexivity. Qed.

(** The whole run on the city whose one candidate has no review: Agent 2
    fetches the place, warns, returns nothing, and the handler stops with
    the "no match" warning before Agent 3. *)
Example handler_quiet_city :
  log (run_button_handler Demo.quiet_env Demo.no_str_ints "Lisbon, Portugal"
         "cozy cafe" (45 # 10) 500 Demo.w0).1
  = log quiet_found
    ++ [EvWrite (MsgAgent2Analyzing 1); EvPlace (PStr "c");
        EvWrite (MsgSkipNoReviews (PStr "C"));
        EvWrite (MsgAgent2Finished (PStr "None")); EvWarning MsgAgent2NoMatch].
Proof. vm_compute. reflexivity. Qed.

Lemma agent2_no_reviews_skipped_witness :
  (∃ w' out,
     agent2_analyze_vibe Demo.lisbon_env Demo.no_str_ints [0; 1; 2]%nat "cozy"
       Demo.w3 = (w', Val out)
     ∧ (2%nat ∉ out)
     ∧ (heap w' !!! 2%nat) !! "url" = Some (PStr "https://maps/c"))
  ∧ agent2_analyze_vibe Demo.toolless_env Demo.no_str_ints [0; 1; 2]%nat
      "cozy" Demo.w3
    = (emit (EvWrite (MsgAgent2Analyzing 3)) Demo.w3, Exc).
Proof.
  assert (NoDup [0; 1; 2]%nat) as Hnd.
  { repeat constructor; rewrite ?elem_of_cons, elem_of_nil; intros H;
      repeat destruct H as [H|H]; done. }
  split.
  - refine (agent2_no_reviews_skipped Demo.lisbon_env Demo.no_str_ints "cozy"
      [0; 1; 2]%nat Demo.w3 2%nat 2%nat
      (fetch_details Demo.lisbon_env 2%nat
         (run_spots Demo.lisbon_env Demo.no_str_ints "cozy" [0; 1]%nat
            (emit (EvWrite (MsgAgent2Analyzing 3)) Demo.w3))).1
      (PList []) (PStr "https://maps/c") w3_named Hnd eq_refl _ eq_refl).
    vm_compute. reflexivity.
  - refine (agent2_no_reviews_skipped Demo.toolless_env Demo.no_str_ints
      "cozy" [0; 1; 2]%nat Demo.w3 2%nat 2%nat
      (fetch_details Demo.toolless_env 2%nat
         (run_spots Demo.toolless_env Demo.no_str_ints "cozy" [0; 1]%nat
            (emit (EvWrite (MsgAgent2Analyzing 3)) Demo.w3))).1
      (PList []) (PStr "https://maps/c") w3_named Hnd eq_refl _ eq_refl).
    vm_compute. reflexivity.
Defined.

End Examples.
